(** * JoyLoc: the location controller and the town resolver

    A shallow embedding of the two source files of the application:

    - the React component [App]: the handlers [handleLocationUpdate] and
      [handleLocationError], the mount effect, and the state they act on
      ([town], [status], [error], [watchId], [lastPosition]);
    - [services/geminiService.ts]: the load-time credential check and
      [getTownFromCoordinates].

    JavaScript numbers are IEEE 754 binary64 values: they are modelled by
    Rocq's primitive floats, whose operations are the same binary64
    operations.  JavaScript strings are sequences of UTF-16 code units.
    The browser's event loop runs one callback at a time; a handler that
    awaits is split at the [await] into the part that runs when the fix is
    delivered and the part that runs when the promise settles. *)

From Stdlib Require Import Floats ZArith NArith Bool List String Ascii Lia.
Import ListNotations.

Set Warnings "-inexact-float".

(** ** JavaScript strings *)

Module Js.

(** A string is the list of its UTF-16 code units. *)
Definition code_unit := N.
Definition JsString := list code_unit.

Definition byte_of (a : ascii) : N := N_of_ascii a.

(** Payload bits of a UTF-8 continuation byte. *)
Definition cont (a : ascii) : N := N.land (byte_of a) 63.

(** The code units of a source literal.  The source files are UTF-8, and
    a Rocq string literal holds the bytes of the file: one to three bytes
    give one code unit, four bytes give a surrogate pair. *)
Fixpoint lit (s : string) : JsString :=
  match s with
  | EmptyString => []
  | String a rest =>
      let b := byte_of a in
      if (b <? 128)%N then b :: lit rest
      else if (b <? 224)%N then
        match rest with
        | String c1 rest1 =>
            N.lor (N.shiftl (N.land b 31) 6) (cont c1) :: lit rest1
        | _ => [65533%N]
        end
      else if (b <? 240)%N then
        match rest with
        | String c1 (String c2 rest2) =>
            N.lor (N.shiftl (N.land b 15) 12)
                  (N.lor (N.shiftl (cont c1) 6) (cont c2)) :: lit rest2
        | _ => [65533%N]
        end
      else
        match rest with
        | String c1 (String c2 (String c3 rest3)) =>
            let cp := N.lor (N.shiftl (N.land b 7) 18)
                        (N.lor (N.shiftl (cont c1) 12)
                           (N.lor (N.shiftl (cont c2) 6) (cont c3))) in
            let v := (cp - 65536)%N in
            (55296 + N.shiftr v 10)%N :: (56320 + N.land v 1023)%N :: lit rest3
        | _ => [65533%N]
        end
  end.

(** ECMAScript [WhiteSpace] and [LineTerminator] code points, the set
    that [String.prototype.trim] strips. *)
Definition isWhiteSpace (c : code_unit) : bool :=
  ((c =? 9) || (c =? 10) || (c =? 11) || (c =? 12) || (c =? 13)
   || (c =? 32) || (c =? 160) || (c =? 5760)
   || ((8192 <=? c) && (c <=? 8202))
   || (c =? 8232) || (c =? 8233) || (c =? 8239) || (c =? 8287)
   || (c =? 12288) || (c =? 65279))%N.

Fixpoint trimStart (s : JsString) : JsString :=
  match s with
  | [] => []
  | c :: rest => if isWhiteSpace c then trimStart rest else s
  end.

Definition trimEnd (s : JsString) : JsString := rev (trimStart (rev s)).

(** [s.trim()] *)
Definition trim (s : JsString) : JsString := trimEnd (trimStart s).

Definition BACKTICK : code_unit := 96%N.
Definition ASTERISK : code_unit := 42%N.

(** The character class [[`*]]. *)
Definition isFormatting (c : code_unit) : bool :=
  ((c =? BACKTICK) || (c =? ASTERISK))%N.

(** [s.replace(/[`*]/g, '')]: every match of the class is deleted. *)
Definition stripFormatting (s : JsString) : JsString :=
  filter (fun c => negb (isFormatting c)) s.

(** Truthiness of a string: only the empty string is falsy. *)
Definition truthy (s : JsString) : bool :=
  match s with [] => false | _ :: _ => true end.

(** An [Error] object, by its message. *)
Record Error := mkError { message : JsString }.

(** How a promise settles. *)
Inductive Settled (A : Type) : Type :=
| Fulfilled (value : A)
| Rejected (reason : Error).
Arguments Fulfilled {A} value.
Arguments Rejected {A} reason.

End Js.

Import Js.


(** ** services/geminiService.ts *)

Module GeminiService.

(** The client [new GoogleGenAI({ apiKey })], by the key it was built with. *)
Record GoogleGenAI := mkGoogleGenAI { apiKey : JsString }.

(** What [ai.models.generateContent] resolves to; the [text] accessor of
    the SDK's response is a string or [undefined]. *)
Record GenerateContentResponse := mkResponse { text : option JsString }.

(** Evaluating the module either throws or leaves its bindings ([ai], and
    with it the exported [getTownFromCoordinates]) defined. *)
Inductive ModuleEvaluation : Type :=
| Throws (e : Error)
| Exports (ai : GoogleGenAI).

Definition MISSING_KEY : Error :=
  mkError (lit "API_KEY environment variable not set").
Definition EMPTY_RESPONSE : Error :=
  mkError (lit "Received an empty response from the API.").
Definition FETCH_FAILED : Error :=
  mkError (lit "Failed to fetch town name from Gemini API.").

(** The [TypeError] of calling [.trim()] on [undefined]; its message is the
    engine's, and the [catch] block discards it. *)
Definition TYPE_ERROR : Error :=
  mkError (lit "Cannot read properties of undefined (reading 'trim')").

(** Module top level: [process_env_API_KEY] is [process.env.API_KEY], a
    string or [undefined].  [!apiKey] holds for [undefined] and for the
    empty string. *)
Definition load (process_env_API_KEY : option JsString) : ModuleEvaluation :=
  match process_env_API_KEY with
  | None => Throws MISSING_KEY
  | Some key =>
      if negb (truthy key) then Throws MISSING_KEY
      else Exports (mkGoogleGenAI key)
  end.

(** The body of the [try] block, from the settled [generateContent] call
    on. *)
Definition tryBlock (generateContent : Settled GenerateContentResponse)
  : Settled JsString :=
  match generateContent with
  | Rejected e => Rejected e
  | Fulfilled response =>
      match text response with
      | None => Rejected TYPE_ERROR
      | Some t =>
          let townName := trim t in
          if negb (truthy townName) then Rejected EMPTY_RESPONSE
          else Fulfilled (stripFormatting townName)
      end
  end.

(** [getTownFromCoordinates(lat, lon)], given how the one call to the
    remote API settles.  [lat] and [lon] go into the prompt and nowhere
    else.  The function closes over the module's [ai], so it exists only
    where [load] gave [Exports ai].  The [catch] block replaces any error
    by [FETCH_FAILED]. *)
Definition getTownFromCoordinates (ai : GoogleGenAI) (lat lon : float)
  (generateContent : Settled GenerateContentResponse) : Settled JsString :=
  match tryBlock generateContent with
  | Fulfilled name => Fulfilled name
  | Rejected _ => Rejected FETCH_FAILED
  end.

End GeminiService.

(** ** The component [App] *)

Module App.

Import GeminiService.
Open Scope float_scope.

(** Modelled from the spec: [types.ts], which declares the [Status] enum,
    is not among the sources; the spec lists its variants as Idle,
    Locating, Geocoding, Success and Error. *)
Inductive Status : Type := IDLE | LOCATING | GEOCODING | SUCCESS | ERROR.

(** The platform's [GeolocationPosition], as far as the handler reads it. *)
Record GeolocationCoordinates := mkCoords { latitude : float; longitude : float }.
Record GeolocationPosition := mkPosition { coords : GeolocationCoordinates }.

(** The platform's [GeolocationPositionError]; [code] is one of the
    interface's constants below, or any other number. *)
Record GeolocationPositionError := mkPositionError { code : N }.
Definition PERMISSION_DENIED : N := 1.
Definition POSITION_UNAVAILABLE : N := 2.
Definition TIMEOUT : N := 3.

(** The object held by the [lastPosition] ref. *)
Record LatLon := mkLatLon { lat : float; lon : float }.

(** The component's state: three [useState] cells and two refs. *)
Record State := mkState {
  town : option JsString;
  status : Status;
  error : option JsString;
  watchId : option N;
  lastPosition : option LatLon
}.

(** Values of the first render. *)
Definition initial : State :=
  {| town := None; status := IDLE; error := None;
     watchId := None; lastPosition := None |}.

(** Handlers are state transformers. *)
Definition M (A : Type) : Type := State -> A * State.
Definition ret {A} (a : A) : M A := fun s => (a, s).
Definition bind {A B} (c : M A) (k : A -> M B) : M B :=
  fun s => let (a, s') := c s in k a s'.
Definition exec {A} (c : M A) (s : State) : State := snd (c s).

Notation "x <- c1 ;; c2" := (bind c1 (fun x => c2))
  (at level 61, c1 at next level, right associativity).
Notation "c1 ;; c2" := (bind c1 (fun _ => c2))
  (at level 61, right associativity).

Definition setTown (v : option JsString) : M unit := fun s =>
  (tt, {| town := v; status := status s; error := error s;
          watchId := watchId s; lastPosition := lastPosition s |}).
Definition setStatus (v : Status) : M unit := fun s =>
  (tt, {| town := town s; status := v; error := error s;
          watchId := watchId s; lastPosition := lastPosition s |}).
Definition setError (v : option JsString) : M unit := fun s =>
  (tt, {| town := town s; status := status s; error := v;
          watchId := watchId s; lastPosition := lastPosition s |}).
Definition setWatchId (v : option N) : M unit := fun s =>
  (tt, {| town := town s; status := status s; error := error s;
          watchId := v; lastPosition := lastPosition s |}).
Definition setLastPosition (v : option LatLon) : M unit := fun s =>
  (tt, {| town := town s; status := status s; error := error s;
          watchId := watchId s; lastPosition := v |}).
Definition getLastPosition : M (option LatLon) := fun s => (lastPosition s, s).

(** The literal compared against on both axes. *)
Definition THRESHOLD : float := 0.0001.

(** The condition of the early [return]: a last position exists and both
    axes moved by less than the threshold. *)
Definition unchanged (last : option LatLon) (latitude longitude : float) : bool :=
  match last with
  | None => false
  | Some p =>
      (abs (lat p - latitude) <? THRESHOLD)
      && (abs (lon p - longitude) <? THRESHOLD)
  end.

(** The arguments of one call [getTownFromCoordinates(latitude, longitude)]. *)
Record Call := mkCall { arg_lat : float; arg_lon : float }.

Definition LOOKUP_FAILED : JsString :=
  lit "Impossible de déterminer la ville. L'API est peut-être occupée.".

(** [handleLocationUpdate] up to its [await]: [None] when the handler
    returned early, [Some c] when it reached the call [c] and suspended. *)
Definition handleLocationUpdate (position : GeolocationPosition)
  : M (option Call) :=
  let latitude := latitude (coords position) in
  let longitude := longitude (coords position) in
  last <- getLastPosition ;;
  if unchanged last latitude longitude then ret None
  else
    setLastPosition (Some {| lat := latitude; lon := longitude |}) ;;
    setStatus GEOCODING ;;
    ret (Some {| arg_lat := latitude; arg_lon := longitude |}).

(** [handleLocationUpdate] from its [await] on, once the promise of
    [getTownFromCoordinates] has settled: the rest of the [try] block, or
    the [catch] block. *)
Definition handleLocationUpdate_resume (settled : Settled JsString) : M unit :=
  match settled with
  | Fulfilled newTown =>
      setTown (Some newTown) ;;
      setStatus SUCCESS ;;
      setError None
  | Rejected _ =>
      setError (Some LOOKUP_FAILED) ;;
      setStatus ERROR
  end.

Definition UNKNOWN_ERROR : JsString :=
  lit "Une erreur de localisation inconnue est survenue.".
Definition DENIED : JsString :=
  lit "Accès à la localisation refusé. Veuillez l'activer dans les paramètres de votre navigateur.".
Definition UNAVAILABLE : JsString :=
  lit "Les informations de localisation ne sont pas disponibles.".
Definition TIMED_OUT : JsString :=
  lit "La demande de localisation de l'utilisateur a expiré.".
Definition UNSUPPORTED : JsString :=
  lit "La géolocalisation n'est pas prise en charge par votre navigateur.".

(** The [switch] on [error.code]; cases are tried in order with [===]. *)
Definition errorMessage (error : GeolocationPositionError) : JsString :=
  if (code error =? PERMISSION_DENIED)%N then DENIED
  else if (code error =? POSITION_UNAVAILABLE)%N then UNAVAILABLE
  else if (code error =? TIMEOUT)%N then TIMED_OUT
  else UNKNOWN_ERROR.

Definition handleLocationError (error : GeolocationPositionError) : M unit :=
  setError (Some (errorMessage error)) ;;
  setStatus ERROR.

(** The mount effect.  [geolocation] is [None] when [navigator.geolocation]
    is missing, and otherwise the id that [watchPosition] returns. *)
Definition mountEffect (geolocation : option N) : M unit :=
  match geolocation with
  | None =>
      setError (Some UNSUPPORTED) ;;
      setStatus ERROR
  | Some id =>
      setStatus LOCATING ;;
      setWatchId (Some id)
  end.

End App.

(** ** The event loop

    Callbacks run one at a time and to completion.  Three kinds of event
    reach the component: a fix and an error from the location watch, and
    the settlement of a pending call to the remote API, on which the
    suspended [getTownFromCoordinates] and then the suspended
    [handleLocationUpdate] run on. *)

Module EventLoop.

Import GeminiService App.

Record World := mkWorld {
  app : State;
  (** Calls awaiting settlement, oldest first. *)
  pending : list Call;
  (** Every call issued so far, most recent first. *)
  calls : list Call
}.

Inductive Event : Type :=
| Fix (position : GeolocationPosition)
| WatchError (error : GeolocationPositionError)
(** The [k]-th pending call's request to the API settles. *)
| Settle (k : nat) (generateContent : Settled GenerateContentResponse).

Fixpoint remove_nth {A} (k : nat) (l : list A) : list A :=
  match l, k with
  | [], _ => []
  | _ :: l', O => l'
  | x :: l', S k' => x :: remove_nth k' l'
  end.

(** One turn of the loop; [None] when the event cannot occur (no such
    pending call). *)
Definition step (ai : GoogleGenAI) (w : World) (ev : Event) : option World :=
  match ev with
  | Fix position =>
      let (issued, s) := handleLocationUpdate position (app w) in
      Some match issued with
           | None => {| app := s; pending := pending w; calls := calls w |}
           | Some c =>
               {| app := s; pending := pending w ++ [c]; calls := c :: calls w |}
           end
  | WatchError error =>
      Some {| app := exec (handleLocationError error) (app w);
              pending := pending w; calls := calls w |}
  | Settle k generateContent =>
      match nth_error (pending w) k with
      | None => None
      | Some c =>
          let settled :=
            getTownFromCoordinates ai (arg_lat c) (arg_lon c) generateContent in
          Some {| app := exec (handleLocationUpdate_resume settled) (app w);
                  pending := remove_nth k (pending w); calls := calls w |}
      end
  end.

Fixpoint run (ai : GoogleGenAI) (w : World) (evs : list Event) : option World :=
  match evs with
  | [] => Some w
  | ev :: evs' =>
      match step ai w ev with
      | None => None
      | Some w' => run ai w' evs'
      end
  end.

(** The component once mounted. *)
Definition mounted (geolocation : option N) : World :=
  {| app := exec (mountEffect geolocation) initial; pending := []; calls := [] |}.

(** The most recent fix that passes the significance filter, computed from
    the fixes of an event sequence alone. *)
Fixpoint lastAccepted (last : option LatLon) (evs : list Event) : option LatLon :=
  match evs with
  | [] => last
  | Fix p :: evs' =>
      let la := latitude (coords p) in
      let lo := longitude (coords p) in
      lastAccepted
        (if unchanged last la lo then last else Some {| lat := la; lon := lo |})
        evs'
  | _ :: evs' => lastAccepted last evs'
  end.

(** The page: evaluating the component's module first evaluates the
    resolver module it imports; if that throws, nothing of the component
    exists. *)
Inductive Page : Type :=
| Crashed (e : Error)
| Running (ai : GoogleGenAI) (w : World).

Definition start (process_env_API_KEY : option JsString)
  (geolocation : option N) : Page :=
  match load process_env_API_KEY with
  | Throws e => Crashed e
  | Exports ai => Running ai (mounted geolocation)
  end.

Definition deliver (p : Page) (ev : Event) : option Page :=
  match p with
  | Crashed _ => None
  | Running ai w =>
      match step ai w ev with
      | None => None
      | Some w' => Some (Running ai w')
      end
  end.

(** Calls made to the resolver by a page. *)
Definition callsOf (p : Page) : list Call :=
  match p with
  | Crashed _ => []
  | Running _ w => calls w
  end.

End EventLoop.

Import GeminiService App EventLoop.
Open Scope float_scope.

(** Shorthand for a fix at given coordinates. *)
Definition fixAt (la lo : float) : GeolocationPosition :=
  mkPosition (mkCoords la lo).

(** The acceptance rule as the specification words it: no previous
    coordinate, or a difference on one axis that exceeds the threshold. *)
Definition exceedsThreshold (last : option LatLon) (la lo : float) : bool :=
  match last with
  | None => true
  | Some p => (0.0001 <? abs (lat p - la)) || (0.0001 <? abs (lon p - lo))
  end.

(** A difference that is not strictly below the threshold: it reaches it,
    or it is not a number. *)
Definition reaches (d : float) : bool := (0.0001 <=? d) || is_nan d.

(** Whether the handler got as far as the resolver call. *)
Definition accepts (s : State) (b : GeolocationPosition) : bool :=
  match fst (handleLocationUpdate b s) with
  | Some _ => true
  | None => false
  end.

(** An event overlaps when it is a fix that the handler accepts while an
    earlier call is still pending. *)
Definition overlaps (w : World) (ev : Event) : bool :=
  match ev with
  | Fix b =>
      accepts (app w) b
      && match pending w with [] => false | _ :: _ => true end
  | _ => false
  end.

(** No event of the sequence overlaps. *)
Fixpoint serialised (ai : GoogleGenAI) (w : World) (evs : list Event) : bool :=
  match evs with
  | [] => true
  | ev :: evs' =>
      negb (overlaps w ev)
      && match step ai w ev with
         | None => true
         | Some w' => serialised ai w' evs'
         end
  end.

(** The coordinates a call was issued with. *)
Definition coordsOf (c : Call) : LatLon :=
  {| lat := arg_lat c; lon := arg_lon c |}.

(** How many settlements an event sequence holds. *)
Fixpoint settlements (evs : list Event) : nat :=
  match evs with
  | [] => 0
  | Settle _ _ :: evs' => S (settlements evs')
  | _ :: evs' => settlements evs'
  end.

(** ** Sample data *)

Definition someAi : GoogleGenAI := mkGoogleGenAI (lit "key").

(** A component that has accepted a fix at [(la, lo)] and shows [t] with
    message [e]. *)
Definition showing (t e : option JsString) (st : Status) (la lo : float) : State :=
  {| town := t; status := st; error := e; watchId := Some 7%N;
     lastPosition := Some {| lat := la; lon := lo |} |}.

Definition idleWorld (s : State) : World :=
  {| app := s; pending := []; calls := [] |}.

Definition awaiting (s : State) (c : Call) : World :=
  {| app := s; pending := [c]; calls := [c] |}.

Definition replies (t : string) : Settled GenerateContentResponse :=
  Fulfilled (mkResponse (Some (lit t))).

(** Three fixes around Lyon, the lookup of the first failing before the
    third arrives. *)
Definition journey : list Event :=
  [ Fix (fixAt 45.0 4.8);
    Fix (fixAt 45.00005 4.8);
    Settle 0 (Rejected (mkError (lit "Failed to fetch")));
    Fix (fixAt 45.0 4.8);
    Fix (fixAt 45.0002 4.8) ].

(** Where a sequence of events leads; the world is left as it is when an
    event of the sequence cannot occur. *)
Definition worldAfter (w : World) (evs : list Event) : World :=
  match run someAi w evs with
  | Some w' => w'
  | None => w
  end.

Definition journeyEnd : World := worldAfter (mounted (Some 7%N)) journey.

(** One more fix after the journey, and its lookup failing. *)
Definition detour : GeolocationPosition := fixAt 46.0 4.8.
Definition detourPending : World := worldAfter journeyEnd [Fix detour].
Definition detourFailed : World :=
  worldAfter detourPending [Settle 1 (Fulfilled (mkResponse None))].

(** ** What the component shows

    The markup the component returns, reduced to what depends on the
    state: the row [renderStatus] builds, the town panel and the error
    box.  Layout classes and the fixed header and footer are left out. *)

Module View.

Inductive Icon : Type := LoaderIcon | MapPinIcon | AlertTriangleIcon.

(** The element [renderStatus] returns: a row with its colour class, its
    icon (spinning or not) and its caption, or the empty spacer of the
    [default] case. *)
Inductive StatusRow : Type :=
| Row (colour : JsString) (icon : Icon) (spinning : bool) (caption : JsString)
| Spacer.

Definition renderStatus (status : Status) : StatusRow :=
  match status with
  | LOCATING =>
      Row (lit "text-cyan-400") LoaderIcon true
        (lit "Recherche de votre position...")
  | GEOCODING =>
      Row (lit "text-purple-400") LoaderIcon true
        (lit "Détermination de votre ville...")
  | SUCCESS =>
      Row (lit "text-green-400") MapPinIcon false
        (lit "Position mise à jour !")
  | ERROR =>
      Row (lit "text-red-400") AlertTriangleIcon false (lit "Erreur")
  | IDLE => Spacer
  end.

(** The two branches of [town ? ... : ...]. *)
Inductive TownPanel : Type :=
| TownName (name : JsString)
| Waiting (caption : JsString).

Definition WAITING : JsString := lit "En attente de la localisation...".

Record Screen := mkScreen {
  statusRow : StatusRow;
  townPanel : TownPanel;
  (** The paragraph of [error && ...], when it is rendered. *)
  errorBox : option JsString
}.

(** The component's return value.  [null] and the empty string are both
    falsy in [town ? ... : ...] and in [error && ...]. *)
Definition render (s : State) : Screen :=
  {| statusRow := renderStatus (status s);
     townPanel :=
       match town s with
       | Some name => if truthy name then TownName name else Waiting WAITING
       | None => Waiting WAITING
       end;
     errorBox :=
       match error s with
       | Some msg => if truthy msg then Some msg else None
       | None => None
       end |}.

End View.

Import View.

(** ** Unmounting *)

(** The cleanup function the mount effect returns: [clearWatch] is called
    with the stored id unless the ref holds [null].  The result is the id
    cleared, if any. *)
Definition cleanup (s : State) : option N :=
  match watchId s with
  | Some id => Some id
  | None => None
  end.

(** Unmounting runs the cleanup the effect returned; the branch taken when
    [navigator.geolocation] is missing returns none. *)
Definition unmount (geolocation : option N) (s : State) : option N :=
  match geolocation with
  | None => None
  | Some _ => cleanup s
  end.

(** ** Properties of call logs *)

(** Each call of the log (most recent first) was issued for a position
    that the filter tells apart from the position of the call before it. *)
Fixpoint spaced (cs : list Call) : bool :=
  match cs with
  | [] => true
  | c :: older =>
      match older with
      | [] => true
      | p :: _ => negb (unchanged (Some (coordsOf p)) (arg_lat c) (arg_lon c))
      end
      && spaced older
  end.

(** No code unit of the string is a backtick or an asterisk. *)
Definition unformatted (s : JsString) : bool :=
  forallb (fun c => negb (isFormatting c)) s.

(** The state is one that the handlers can leave behind. *)
Definition coherent (w : World) : Prop :=
  match status (app w) with
  | IDLE => False
  | LOCATING =>
      town (app w) = None /\ error (app w) = None
      /\ lastPosition (app w) = None /\ calls w = []
  | GEOCODING => pending w <> [] /\ lastPosition (app w) <> None
  | SUCCESS => error (app w) = None /\ exists t, town (app w) = Some t
  | ERROR => exists m, error (app w) = Some m /\ m <> []
  end.

(** Two lookups pending, for Lyon and then for Villeurbanne. *)
Definition twoPending : World :=
  {| app := showing None None GEOCODING 45.77 4.88;
     pending := [ {| arg_lat := 45.75; arg_lon := 4.85 |};
                  {| arg_lat := 45.77; arg_lon := 4.88 |} ];
     calls := [ {| arg_lat := 45.77; arg_lon := 4.88 |};
                {| arg_lat := 45.75; arg_lon := 4.85 |} ] |}.

(** ** Binary64 comparisons

    [Math.abs(x - y) < t] is [abs (x - y) <? t] on primitive floats.  The
    facts below are read off the specification of the primitive
    operations. *)

Section FloatFacts.

Open Scope float_scope.

Lemma SFcompare_antisym x y c :
  SFcompare x y = Some c -> SFcompare y x = Some (CompOpp c).
Proof.
  destruct x as [sx|sx| |sx mx ex], y as [sy|sy| |sy my ey]; simpl;
    try discriminate;
    try (destruct sx; intros [= <-]; reflexivity);
    try (destruct sy; intros [= <-]; reflexivity);
    try (intros [= <-]; reflexivity).
  - destruct sx, sy; intros [= <-]; reflexivity.
  - destruct sx, sy; intros [= <-]; try reflexivity.
    + rewrite (Z.compare_antisym ex ey).
      destruct (ex ?= ey)%Z; simpl; try reflexivity.
      fold (Pos.compare my mx). fold (Pos.compare mx my).
      rewrite (Pos.compare_antisym mx my). reflexivity.
    + rewrite (Z.compare_antisym ex ey).
      destruct (ex ?= ey)%Z; simpl; try reflexivity.
      fold (Pos.compare my mx). fold (Pos.compare mx my).
      rewrite (Pos.compare_antisym mx my).
      destruct (mx ?= my)%positive; reflexivity.
Qed.

Lemma SFcompare_refl x : x <> S754_nan -> SFcompare x x = Some Eq.
Proof.
  destruct x as [s|s| |s m e]; simpl; intros H; try congruence.
  - destruct s; reflexivity.
  - fold (Pos.compare m m).
    destruct s; rewrite Z.compare_refl, Pos.compare_refl; reflexivity.
Qed.

Lemma SFcompare_None x y :
  SFcompare x y = None -> x = S754_nan \/ y = S754_nan.
Proof.
  destruct x as [sx|sx| |sx mx ex], y as [sy|sy| |sy my ey]; simpl;
    try discriminate; auto.
Qed.

(** [x <= y] excludes [y < x]. *)
Lemma leb_ltb_false x y : (x <=? y) = true -> (y <? x) = false.
Proof.
  rewrite leb_spec, ltb_spec. unfold SFleb, SFltb.
  destruct (SFcompare (Prim2SF x) (Prim2SF y)) as [c|] eqn:E; try discriminate.
  rewrite (SFcompare_antisym _ _ _ E).
  destruct c; simpl; congruence.
Qed.

Lemma eqb_ltb_false x y : (x =? y) = true -> (x <? y) = false.
Proof.
  rewrite FloatAxioms.eqb_spec, ltb_spec. unfold SFeqb, SFltb.
  destruct (SFcompare (Prim2SF x) (Prim2SF y)) as [[]|]; congruence.
Qed.

Lemma ltb_leb_false x y : (x <? y) = true -> (y <=? x) = false.
Proof.
  rewrite leb_spec, ltb_spec. unfold SFleb, SFltb.
  destruct (SFcompare (Prim2SF x) (Prim2SF y)) as [c|] eqn:E; try discriminate.
  rewrite (SFcompare_antisym _ _ _ E).
  destruct c; simpl; congruence.
Qed.

Lemma is_nan_spec x : is_nan x = true <-> Prim2SF x = S754_nan.
Proof.
  unfold is_nan. rewrite FloatAxioms.eqb_spec. unfold SFeqb. split.
  - intros H. destruct (SFcompare (Prim2SF x) (Prim2SF x)) eqn:E.
    + destruct (Prim2SF x) eqn:P; auto;
        rewrite SFcompare_refl in E by discriminate;
        injection E as <-; discriminate.
    + apply SFcompare_None in E. tauto.
  - intros ->. reflexivity.
Qed.

(** When [x < y] is false, either [y <= x] or the two are unordered. *)
Lemma ltb_false_inv x y :
  (x <? y) = false ->
  (y <=? x) = true \/ is_nan x = true \/ is_nan y = true.
Proof.
  rewrite ltb_spec, leb_spec, !is_nan_spec. unfold SFleb, SFltb.
  destruct (SFcompare (Prim2SF x) (Prim2SF y)) as [c|] eqn:E.
  - rewrite (SFcompare_antisym _ _ _ E). destruct c; simpl; auto; discriminate.
  - apply SFcompare_None in E. tauto.
Qed.

Lemma is_finite_spec x :
  is_finite x = true ->
  (exists s, Prim2SF x = S754_zero s) \/
  (exists s m e, Prim2SF x = S754_finite s m e).
Proof.
  unfold is_finite. rewrite negb_true_iff, orb_false_iff. intros [Hn Hi].
  destruct (Prim2SF x) as [s|s| |s m e] eqn:P; eauto.
  - exfalso. unfold is_infinity in Hi.
    rewrite FloatAxioms.eqb_spec, abs_spec, P in Hi.
    vm_compute in Hi. discriminate.
  - exfalso. apply is_nan_spec in P. congruence.
Qed.

(** A finite number minus itself is [+0]. *)
Lemma abs_sub_diag x :
  is_finite x = true -> Prim2SF (abs (x - x)) = S754_zero false.
Proof.
  intros H. rewrite abs_spec, sub_spec. unfold SF64sub.
  destruct (is_finite_spec x H) as [[s ->]|(s & m & e & ->)].
  - destruct s; reflexivity.
  - unfold SFsub. cbv zeta. rewrite Z.sub_diag. reflexivity.
Qed.

End FloatFacts.


(** ** The handlers, step by step *)

Section Handlers.

Open Scope float_scope.

Lemma handleLocationUpdate_unchanged b s :
  unchanged (lastPosition s) (latitude (coords b)) (longitude (coords b)) = true ->
  handleLocationUpdate b s = (None, s).
Proof.
  intros H. unfold handleLocationUpdate, bind, getLastPosition, ret.
  rewrite H. reflexivity.
Qed.

Lemma handleLocationUpdate_changed b s :
  unchanged (lastPosition s) (latitude (coords b)) (longitude (coords b)) = false ->
  handleLocationUpdate b s =
    (Some {| arg_lat := latitude (coords b); arg_lon := longitude (coords b) |},
     {| town := town s; status := GEOCODING; error := error s;
        watchId := watchId s;
        lastPosition := Some {| lat := latitude (coords b);
                                lon := longitude (coords b) |} |}).
Proof.
  intros H. unfold handleLocationUpdate, bind, getLastPosition, ret.
  rewrite H. reflexivity.
Qed.

Lemma accepts_unchanged s b :
  accepts s b =
    negb (unchanged (lastPosition s) (latitude (coords b)) (longitude (coords b))).
Proof.
  unfold accepts.
  destruct (unchanged (lastPosition s) (latitude (coords b)) (longitude (coords b)))
    eqn:E.
  - rewrite (handleLocationUpdate_unchanged _ _ E). reflexivity.
  - rewrite (handleLocationUpdate_changed _ _ E). reflexivity.
Qed.

Lemma step_Fix_unchanged ai w b :
  unchanged (lastPosition (app w)) (latitude (coords b)) (longitude (coords b)) = true ->
  step ai w (Fix b) = Some w.
Proof.
  intros H. unfold step. rewrite (handleLocationUpdate_unchanged _ _ H).
  destruct w; reflexivity.
Qed.

Lemma step_Fix_changed ai w b :
  unchanged (lastPosition (app w)) (latitude (coords b)) (longitude (coords b)) = false ->
  step ai w (Fix b) =
    let c := {| arg_lat := latitude (coords b); arg_lon := longitude (coords b) |} in
    Some {| app := {| town := town (app w); status := GEOCODING;
                      error := error (app w); watchId := watchId (app w);
                      lastPosition := Some {| lat := latitude (coords b);
                                              lon := longitude (coords b) |} |};
            pending := pending w ++ [c]; calls := c :: calls w |}.
Proof.
  intros H. unfold step. rewrite (handleLocationUpdate_changed _ _ H). reflexivity.
Qed.

Lemma reaches_not_below d : reaches d = negb (d <? 0.0001).
Proof.
  unfold reaches. destruct (d <? 0.0001) eqn:L; simpl.
  - rewrite (ltb_leb_false _ _ L). simpl.
    destruct (is_nan d) eqn:N; auto.
    apply is_nan_spec in N. rewrite ltb_spec, N in L. discriminate.
  - destruct (ltb_false_inv _ _ L) as [H|[H|H]].
    + rewrite H. reflexivity.
    + rewrite H. apply orb_true_r.
    + discriminate.
Qed.

Lemma eqb_reaches d : (d =? 0.0001) = true -> reaches d = true.
Proof.
  intros H. rewrite reaches_not_below, (eqb_ltb_false _ _ H). reflexivity.
Qed.

End Handlers.

(** ** The significance filter *)

(** C1.  A fix within 0.0001 of the last accepted coordinate on both axes
    is dropped: the handler returns before the resolver call, and the
    world (status, town, message, last position, pending and issued calls)
    is what it was. *)
Theorem near_fix_is_dropped :
  forall (ai : GoogleGenAI) (w : World) (a : LatLon) (b : GeolocationPosition),
    lastPosition (app w) = Some a ->
    (abs (lat a - latitude (coords b)) <? 0.0001) = true ->
    (abs (lon a - longitude (coords b)) <? 0.0001) = true ->
    handleLocationUpdate b (app w) = (None, app w)
    /\ step ai w (Fix b) = Some w.
Proof.
  intros ai w a b Hlast Hlat Hlon.
  assert (U : unchanged (lastPosition (app w))
                (latitude (coords b)) (longitude (coords b)) = true).
  { rewrite Hlast. unfold unchanged, THRESHOLD. rewrite Hlat, Hlon. reflexivity. }
  split.
  - apply handleLocationUpdate_unchanged, U.
  - apply step_Fix_unchanged, U.
Qed.

Lemma near_fix_is_dropped_witness :
  handleLocationUpdate (fixAt 45.00005 4.8)
    (showing (Some (lit "Lyon")) None SUCCESS 45.0 4.8)
  = (None, showing (Some (lit "Lyon")) None SUCCESS 45.0 4.8)
  /\ step someAi (idleWorld (showing (Some (lit "Lyon")) None SUCCESS 45.0 4.8))
       (Fix (fixAt 45.00005 4.8))
     = Some (idleWorld (showing (Some (lit "Lyon")) None SUCCESS 45.0 4.8)).
Proof.
  apply (near_fix_is_dropped someAi
           (idleWorld (showing (Some (lit "Lyon")) None SUCCESS 45.0 4.8))
           {| lat := 45.0; lon := 4.8 |} (fixAt 45.00005 4.8));
    reflexivity.
Defined.

(** C2.  A fix with no predecessor, or at least 0.0001 away from the last
    accepted coordinate on one axis, is accepted: it becomes the last
    position, the status becomes Geocoding, and exactly one resolver call
    is issued, with the fix's own latitude and longitude. *)
Theorem far_fix_is_accepted :
  forall (ai : GoogleGenAI) (w : World) (b : GeolocationPosition),
    (lastPosition (app w) = None
     \/ exists a, lastPosition (app w) = Some a
        /\ ((0.0001 <=? abs (lat a - latitude (coords b))) = true
            \/ (0.0001 <=? abs (lon a - longitude (coords b))) = true)) ->
    exists w',
      step ai w (Fix b) = Some w'
      /\ lastPosition (app w')
         = Some {| lat := latitude (coords b); lon := longitude (coords b) |}
      /\ status (app w') = GEOCODING
      /\ town (app w') = town (app w)
      /\ error (app w') = error (app w)
      /\ calls w'
         = {| arg_lat := latitude (coords b); arg_lon := longitude (coords b) |}
           :: calls w
      /\ pending w'
         = pending w
           ++ [{| arg_lat := latitude (coords b); arg_lon := longitude (coords b) |}].
Proof.
  intros ai w b H.
  assert (U : unchanged (lastPosition (app w))
                (latitude (coords b)) (longitude (coords b)) = false).
  { destruct H as [-> | (a & -> & [H | H])]; unfold unchanged, THRESHOLD.
    - reflexivity.
    - rewrite (leb_ltb_false _ _ H). reflexivity.
    - rewrite (leb_ltb_false _ _ H). apply andb_false_r. }
  rewrite (step_Fix_changed ai w b U). cbv zeta.
  eexists; split; [reflexivity|]. simpl. repeat split; reflexivity.
Qed.

Lemma far_fix_is_accepted_witness :
  exists w',
    step someAi (idleWorld (showing None None GEOCODING 45.00005 4.8))
      (Fix (fixAt 45.0002 4.8)) = Some w'
    /\ lastPosition (app w') = Some {| lat := 45.0002; lon := 4.8 |}
    /\ status (app w') = GEOCODING
    /\ town (app w') = None
    /\ error (app w') = None
    /\ calls w' = [{| arg_lat := 45.0002; arg_lon := 4.8 |}]
    /\ pending w' = [{| arg_lat := 45.0002; arg_lon := 4.8 |}].
Proof.
  apply (far_fix_is_accepted someAi
           (idleWorld (showing None None GEOCODING 45.00005 4.8))
           (fixAt 45.0002 4.8)).
  right. exists {| lat := 45.00005; lon := 4.8 |}.
  split; [reflexivity | left; reflexivity].
Defined.

(** C3, as worded, fails on the code: with the last accepted coordinate at
    [(0, 0)], the fix [(0.0001, 0)] has a largest axis difference of
    exactly 0.0001, which does not exceed the threshold, and the handler
    accepts it and issues the resolver call. *)
Lemma exact_threshold_counterexample :
  (abs (0 - 0.0001) =? 0.0001) = true
  /\ (abs (0 - 0) <? 0.0001) = true
  /\ exceedsThreshold (Some {| lat := 0; lon := 0 |}) 0.0001 0 = false
  /\ handleLocationUpdate (fixAt 0.0001 0) (showing None None SUCCESS 0 0)
     = (Some {| arg_lat := 0.0001; arg_lon := 0 |},
        showing None None GEOCODING 0.0001 0).
Proof. repeat split; reflexivity. Qed.

(** C3, amended.  A fix is accepted exactly when there is no previous
    coordinate or, on at least one axis, the absolute difference is not
    strictly below 0.0001 (it is at least 0.0001, or not a number).  In
    particular a fix whose difference on an axis is exactly 0.0001 is
    accepted, and so is every fix the strict rule accepts. *)
Theorem accepted_iff_threshold_reached :
  forall (s : State) (b : GeolocationPosition),
    (accepts s b = true <->
       lastPosition s = None
       \/ exists a, lastPosition s = Some a
          /\ (reaches (abs (lat a - latitude (coords b))) = true
              \/ reaches (abs (lon a - longitude (coords b))) = true))
    /\ (forall a, lastPosition s = Some a ->
          (abs (lat a - latitude (coords b)) =? 0.0001) = true
          \/ (abs (lon a - longitude (coords b)) =? 0.0001) = true ->
          accepts s b = true)
    /\ (exceedsThreshold (lastPosition s)
          (latitude (coords b)) (longitude (coords b)) = true ->
        accepts s b = true).
Proof.
  intros s b.
  assert (E : accepts s b = true <->
       lastPosition s = None
       \/ exists a, lastPosition s = Some a
          /\ (reaches (abs (lat a - latitude (coords b))) = true
              \/ reaches (abs (lon a - longitude (coords b))) = true)).
  { rewrite accepts_unchanged. unfold unchanged, THRESHOLD.
    destruct (lastPosition s) as [a|].
    - rewrite negb_andb, orb_true_iff, <- !reaches_not_below. split.
      + intros H. right. exists a. auto.
      + intros [H | (a' & [= <-] & H)]; [discriminate | exact H].
    - split; auto. }
  split; [exact E|]. split.
  - intros a Ha H. apply E. right. exists a. split; [exact Ha|].
    destruct H as [H | H]; [left | right]; apply eqb_reaches, H.
  - intros H. apply E. unfold exceedsThreshold in H.
    destruct (lastPosition s) as [a|]; [right | left; reflexivity].
    exists a. split; [reflexivity|].
    apply orb_true_iff in H. unfold reaches.
    destruct H as [H | H]; [left | right]; apply orb_true_iff; left;
      rewrite leb_spec; rewrite ltb_spec in H; unfold SFleb, SFltb in *;
      destruct (SFcompare _ _) as [[]|]; congruence.
Qed.

Lemma accepted_iff_threshold_reached_witness :
  accepts (showing None None SUCCESS 0 0) (fixAt 0.0001 0) = true.
Proof.
  apply (proj1 (proj2 (accepted_iff_threshold_reached
                         (showing None None SUCCESS 0 0) (fixAt 0.0001 0)))
           {| lat := 0; lon := 0 |}).
  - reflexivity.
  - left. reflexivity.
Defined.

(** ** Settlement of the resolver call *)

(** C4.  When the call of an accepted fix succeeds with the name [s], the
    state shows Success with [s] as the town and no error message,
    whatever message was there before. *)
Theorem resolver_success :
  forall (ai : GoogleGenAI) (w : World) (k : nat) (c : Call)
         (gc : Settled GenerateContentResponse) (s : JsString),
    nth_error (pending w) k = Some c ->
    getTownFromCoordinates ai (arg_lat c) (arg_lon c) gc = Fulfilled s ->
    exists w',
      step ai w (Settle k gc) = Some w'
      /\ status (app w') = SUCCESS
      /\ town (app w') = Some s
      /\ error (app w') = None
      /\ lastPosition (app w') = lastPosition (app w).
Proof.
  intros ai w k c gc s Hk Hs. unfold step. rewrite Hk, Hs.
  eexists; split; [reflexivity|]. simpl. repeat split; reflexivity.
Qed.

Lemma resolver_success_witness :
  exists w',
    step someAi
      (awaiting (showing None (Some LOOKUP_FAILED) GEOCODING 45.75 4.85)
         {| arg_lat := 45.75; arg_lon := 4.85 |})
      (Settle 0 (replies "Lyon")) = Some w'
    /\ status (app w') = SUCCESS
    /\ town (app w') = Some (lit "Lyon")
    /\ error (app w') = None
    /\ lastPosition (app w') = Some {| lat := 45.75; lon := 4.85 |}.
Proof.
  apply (resolver_success someAi
           (awaiting (showing None (Some LOOKUP_FAILED) GEOCODING 45.75 4.85)
              {| arg_lat := 45.75; arg_lon := 4.85 |})
           0 {| arg_lat := 45.75; arg_lon := 4.85 |} (replies "Lyon")
           (lit "Lyon")); reflexivity.
Defined.

(** X1.  The resolver fails in exactly three ways: the request to the API
    rejects, the response has no text, or its text is empty once trimmed;
    the error it throws is the same in all three. *)
Lemma getTownFromCoordinates_fails ai la lo gc e :
  getTownFromCoordinates ai la lo gc = Rejected e <->
  e = FETCH_FAILED
  /\ ((exists e', gc = Rejected e')
      \/ (exists r, gc = Fulfilled r /\ text r = None)
      \/ (exists r t, gc = Fulfilled r /\ text r = Some t /\ trim t = [])).
Proof.
  unfold getTownFromCoordinates, tryBlock.
  destruct gc as [[[t|]] | e']; simpl.
  - destruct (trim t) as [|u us] eqn:T; simpl.
    + split.
      * intros [= <-]. split; [reflexivity|]. right. right.
        exists (mkResponse (Some t)), t. auto.
      * intros [-> _]. reflexivity.
    + split; [discriminate|].
      intros [_ [(e' & H) | [(r & H & Hr) | (r & t' & H & Hr & Ht)]]];
        try discriminate; injection H as <-; simpl in Hr; congruence.
  - split.
    + intros [= <-]. split; [reflexivity|]. right. left.
      exists (mkResponse None). auto.
    + intros [-> _]. reflexivity.
  - split.
    + intros [= <-]. split; [reflexivity|]. left. eauto.
    + intros [-> _]. reflexivity.
Qed.

(** C5.  When the call of an accepted fix fails, in whichever way, the
    state shows Error with the one lookup-failure message, and the town
    resolved earlier stays. *)
Theorem resolver_failure :
  forall (ai : GoogleGenAI) (w : World) (k : nat) (c : Call)
         (gc : Settled GenerateContentResponse) (e : Error),
    nth_error (pending w) k = Some c ->
    getTownFromCoordinates ai (arg_lat c) (arg_lon c) gc = Rejected e ->
    exists w',
      step ai w (Settle k gc) = Some w'
      /\ status (app w') = ERROR
      /\ error (app w')
         = Some (lit "Impossible de déterminer la ville. L'API est peut-être occupée.")
      /\ town (app w') = town (app w)
      /\ lastPosition (app w') = lastPosition (app w).
Proof.
  intros ai w k c gc e Hk He. unfold step. rewrite Hk, He.
  eexists; split; [reflexivity|]. simpl. repeat split; reflexivity.
Qed.

Lemma resolver_failure_witness :
  exists w',
    step someAi
      (awaiting (showing (Some (lit "Lyon")) None GEOCODING 45.9 4.85)
         {| arg_lat := 45.9; arg_lon := 4.85 |})
      (Settle 0 (replies "   ")) = Some w'
    /\ status (app w') = ERROR
    /\ error (app w') = Some LOOKUP_FAILED
    /\ town (app w') = Some (lit "Lyon")
    /\ lastPosition (app w') = Some {| lat := 45.9; lon := 4.85 |}.
Proof.
  apply (resolver_failure someAi
           (awaiting (showing (Some (lit "Lyon")) None GEOCODING 45.9 4.85)
              {| arg_lat := 45.9; arg_lon := 4.85 |})
           0 {| arg_lat := 45.9; arg_lon := 4.85 |} (replies "   ")
           FETCH_FAILED); reflexivity.
Defined.

(** ** Errors of the location watch *)

Lemma messages_distinct : NoDup [DENIED; UNAVAILABLE; TIMED_OUT; UNKNOWN_ERROR].
Proof.
  repeat constructor; unfold In; intros H;
    repeat (destruct H as [H | H]; [vm_compute in H; discriminate|]);
    exact H.
Qed.

(** C6.  Whatever the state before, a watcher error sets the status to
    Error and the message to the one of its cause: a string each for
    permission denied, position unavailable and timeout, a fallback for
    any other code, the four pairwise different.  The town, the last
    position and the calls are left as they were. *)
Theorem watcher_error :
  forall (ai : GoogleGenAI) (w : World) (e : GeolocationPositionError),
    exists w',
      step ai w (WatchError e) = Some w'
      /\ status (app w') = ERROR
      /\ error (app w') = Some (errorMessage e)
      /\ town (app w') = town (app w)
      /\ lastPosition (app w') = lastPosition (app w)
      /\ pending w' = pending w
      /\ calls w' = calls w
      /\ (code e = PERMISSION_DENIED -> errorMessage e = DENIED)
      /\ (code e = POSITION_UNAVAILABLE -> errorMessage e = UNAVAILABLE)
      /\ (code e = TIMEOUT -> errorMessage e = TIMED_OUT)
      /\ (code e <> PERMISSION_DENIED -> code e <> POSITION_UNAVAILABLE ->
          code e <> TIMEOUT -> errorMessage e = UNKNOWN_ERROR)
      /\ NoDup [DENIED; UNAVAILABLE; TIMED_OUT; UNKNOWN_ERROR].
Proof.
  intros ai w e. eexists. split; [reflexivity|].
  repeat match goal with |- _ /\ _ => split end; try reflexivity.
  - intros H. unfold errorMessage. rewrite H. reflexivity.
  - intros H. unfold errorMessage. rewrite H. reflexivity.
  - intros H. unfold errorMessage. rewrite H. reflexivity.
  - intros H1 H2 H3. unfold errorMessage.
    apply N.eqb_neq in H1, H2, H3. rewrite H1, H2, H3. reflexivity.
  - exact messages_distinct.
Qed.

(** Permission denied while a lookup is pending and Lyon is shown. *)
Example permission_denied_run :
  step someAi
    (awaiting (showing (Some (lit "Lyon")) None GEOCODING 45.9 4.85)
       {| arg_lat := 45.9; arg_lon := 4.85 |})
    (WatchError (mkPositionError 1))
  = Some (awaiting
            (showing (Some (lit "Lyon"))
               (Some (lit "Accès à la localisation refusé. Veuillez l'activer dans les paramètres de votre navigateur."))
               ERROR 45.9 4.85)
            {| arg_lat := 45.9; arg_lon := 4.85 |}).
Proof. vm_compute. reflexivity. Qed.

(** ** The resolver module *)

(** C9.  With no credential in the configuration, evaluating the resolver
    module throws, so the page never gets as far as the component: there
    is no state to put in Error, no event is handled and no resolver call
    is made. *)
Theorem missing_credential_is_fatal :
  forall geolocation : option N,
    load None = Throws (mkError (lit "API_KEY environment variable not set"))
    /\ start None geolocation = Crashed MISSING_KEY
    /\ (forall ai w, start None geolocation <> Running ai w)
    /\ (forall ev, deliver (start None geolocation) ev = None)
    /\ callsOf (start None geolocation) = [].
Proof.
  intros geolocation. repeat split; try reflexivity.
  intros ai w H. discriminate H.
Qed.

(** The empty string counts as no credential. *)
Lemma empty_credential_is_fatal geolocation :
  start (Some []) geolocation = Crashed MISSING_KEY.
Proof. reflexivity. Qed.

(** With a credential the page runs, from the mounted component on. *)
Lemma credential_present c key geolocation :
  start (Some (c :: key)) geolocation
  = Running (mkGoogleGenAI (c :: key)) (mounted geolocation).
Proof. reflexivity. Qed.

(** C10.  A response whose trimmed text is not empty but holds nothing
    except backticks and asterisks makes the resolver succeed with the
    empty string, the emptiness test coming before the stripping; the
    handler then stores the empty string as the town, with status
    Success. *)
Theorem formatting_only_response :
  forall (ai : GoogleGenAI) (la lo : float) (t : JsString) (s : State),
    trim t <> [] ->
    forallb isFormatting (trim t) = true ->
    getTownFromCoordinates ai la lo (Fulfilled (mkResponse (Some t)))
    = Fulfilled []
    /\ town (exec (handleLocationUpdate_resume
                     (getTownFromCoordinates ai la lo
                        (Fulfilled (mkResponse (Some t))))) s) = Some []
    /\ status (exec (handleLocationUpdate_resume
                       (getTownFromCoordinates ai la lo
                          (Fulfilled (mkResponse (Some t))))) s) = SUCCESS.
Proof.
  intros ai la lo t s Hne Hall.
  assert (E : getTownFromCoordinates ai la lo (Fulfilled (mkResponse (Some t)))
              = Fulfilled []).
  { unfold getTownFromCoordinates, tryBlock. simpl.
    destruct (trim t) as [|u us] eqn:T; [congruence|]. simpl truthy. cbv iota.
    simpl negb. cbv iota.
    assert (F : stripFormatting (u :: us) = []).
    { unfold stripFormatting. clear T Hne.
      induction (u :: us) as [|x xs IH]; [reflexivity|].
      simpl in Hall. apply andb_true_iff in Hall as [Hx Hxs].
      simpl. rewrite Hx. simpl. apply IH, Hxs. }
    rewrite F. reflexivity. }
  rewrite E. repeat split; reflexivity.
Qed.

Lemma formatting_only_response_witness :
  getTownFromCoordinates someAi 45.75 4.85 (replies "``") = Fulfilled []
  /\ town (exec (handleLocationUpdate_resume
                   (getTownFromCoordinates someAi 45.75 4.85 (replies "``")))
             (showing None None GEOCODING 45.75 4.85)) = Some []
  /\ status (exec (handleLocationUpdate_resume
                     (getTownFromCoordinates someAi 45.75 4.85 (replies "``")))
               (showing None None GEOCODING 45.75 4.85)) = SUCCESS.
Proof.
  apply (formatting_only_response someAi 45.75 4.85 (lit "``")
           (showing None None GEOCODING 45.75 4.85)).
  - vm_compute. discriminate.
  - reflexivity.
Defined.

(** ** Event sequences *)

Section Runs.

Local Open Scope nat_scope.

Variable ai : GoogleGenAI.

Lemma remove_nth_length {A} (l : list A) k c :
  nth_error l k = Some c -> S (List.length (remove_nth k l)) = List.length l.
Proof.
  revert k. induction l as [|x l IH]; intros [|k] H; simpl in *;
    try discriminate; try reflexivity.
  f_equal. apply IH, H.
Qed.

(** What one event does to the last position: only a fix can change it,
    and only by the filter's verdict. *)
Lemma step_lastPosition w ev w' :
  step ai w ev = Some w' ->
  lastPosition (app w') = lastAccepted (lastPosition (app w)) [ev].
Proof.
  destruct ev as [b | e | k gc]; simpl lastAccepted.
  - destruct (unchanged (lastPosition (app w)) (latitude (coords b))
                (longitude (coords b))) eqn:U.
    + rewrite (step_Fix_unchanged ai w b U). intros [= <-]. reflexivity.
    + rewrite (step_Fix_changed ai w b U). intros [= <-]. reflexivity.
  - intros [= <-]. reflexivity.
  - unfold step. destruct (nth_error (pending w) k) as [c|]; [|discriminate].
    intros [= <-].
    destruct (getTownFromCoordinates ai (arg_lat c) (arg_lon c) gc); reflexivity.
Qed.

(** Calls in flight, calls issued and settlements balance at every step. *)
Lemma step_balance w ev w' :
  step ai w ev = Some w' ->
  List.length (pending w') + settlements [ev] + List.length (calls w)
  = List.length (pending w) + List.length (calls w').
Proof.
  destruct ev as [b | e | k gc]; simpl settlements.
  - destruct (unchanged (lastPosition (app w)) (latitude (coords b))
                (longitude (coords b))) eqn:U.
    + rewrite (step_Fix_unchanged ai w b U). intros [= <-]. lia.
    + rewrite (step_Fix_changed ai w b U). intros [= <-].
      cbn [pending calls]. rewrite List.length_app. simpl. lia.
  - intros [= <-]. simpl. lia.
  - unfold step. destruct (nth_error (pending w) k) as [c|] eqn:K; [|discriminate].
    intros [= <-]. cbn [pending calls].
    pose proof (remove_nth_length _ _ _ K). lia.
Qed.

(** The last position is that of the latest call issued, once it is so. *)
Lemma step_latest_call w ev w' :
  step ai w ev = Some w' ->
  lastPosition (app w) = option_map coordsOf (hd_error (calls w)) ->
  lastPosition (app w') = option_map coordsOf (hd_error (calls w')).
Proof.
  destruct ev as [b | e | k gc].
  - destruct (unchanged (lastPosition (app w)) (latitude (coords b))
                (longitude (coords b))) eqn:U.
    + rewrite (step_Fix_unchanged ai w b U). intros [= <-]. auto.
    + rewrite (step_Fix_changed ai w b U). intros [= <-] _. reflexivity.
  - intros [= <-]. auto.
  - unfold step. destruct (nth_error (pending w) k) as [c|]; [|discriminate].
    intros [= <-].
    destruct (getTownFromCoordinates ai (arg_lat c) (arg_lon c) gc); auto.
Qed.

Lemma lastAccepted_cons last ev evs :
  lastAccepted last (ev :: evs) = lastAccepted (lastAccepted last [ev]) evs.
Proof. destruct ev; reflexivity. Qed.

Lemma run_lastPosition evs : forall w w',
  run ai w evs = Some w' ->
  lastPosition (app w') = lastAccepted (lastPosition (app w)) evs.
Proof.
  induction evs as [|ev evs IH]; intros w w'; simpl run.
  - intros [= <-]. reflexivity.
  - destruct (step ai w ev) as [w1|] eqn:S1; [|discriminate].
    intros R. rewrite lastAccepted_cons, <- (step_lastPosition _ _ _ S1).
    apply IH, R.
Qed.

Lemma run_latest_call evs : forall w w',
  run ai w evs = Some w' ->
  lastPosition (app w) = option_map coordsOf (hd_error (calls w)) ->
  lastPosition (app w') = option_map coordsOf (hd_error (calls w')).
Proof.
  induction evs as [|ev evs IH]; intros w w'; simpl run.
  - intros [= <-]. auto.
  - destruct (step ai w ev) as [w1|] eqn:S1; [|discriminate].
    intros R H. apply (IH _ _ R), (step_latest_call _ _ _ S1 H).
Qed.

Lemma run_balance evs : forall w w',
  run ai w evs = Some w' ->
  List.length (pending w') + settlements evs + List.length (calls w)
  = List.length (pending w) + List.length (calls w').
Proof.
  induction evs as [|ev evs IH]; intros w w'; simpl run.
  - intros [= <-]. simpl. lia.
  - destruct (step ai w ev) as [w1|] eqn:S1; [|discriminate].
    intros R. pose proof (IH _ _ R) as H1.
    pose proof (step_balance _ _ _ S1) as H2.
    assert (settlements (ev :: evs) = settlements [ev] + settlements evs)
      by (destruct ev; reflexivity).
    lia.
Qed.

(** An event that does not overlap leaves at most one call pending. *)
Lemma step_serialised w ev w' :
  step ai w ev = Some w' ->
  overlaps w ev = false ->
  List.length (pending w) <= 1 ->
  List.length (pending w') <= 1.
Proof.
  intros S1 Hs Hp.
  destruct ev as [b | e | k gc]; simpl in Hs.
  - rewrite accepts_unchanged in Hs.
    destruct (unchanged (lastPosition (app w)) (latitude (coords b))
                (longitude (coords b))) eqn:U.
    + rewrite (step_Fix_unchanged ai w b U) in S1. injection S1 as <-.
      exact Hp.
    + rewrite (step_Fix_changed ai w b U) in S1. injection S1 as <-.
      cbn [pending]. simpl in Hs.
      destruct (pending w); [simpl; lia | discriminate].
  - injection S1 as <-. exact Hp.
  - unfold step in S1.
    destruct (nth_error (pending w) k) as [c|] eqn:K; [|discriminate].
    injection S1 as <-. cbn [pending].
    pose proof (remove_nth_length _ _ _ K). lia.
Qed.

Lemma run_serialised evs : forall w w',
  run ai w evs = Some w' ->
  serialised ai w evs = true ->
  List.length (pending w) <= 1 ->
  List.length (pending w') <= 1.
Proof.
  induction evs as [|ev evs IH]; intros w w'; simpl run.
  - intros [= <-] _ H. exact H.
  - destruct (step ai w ev) as [w1|] eqn:S1; [|discriminate].
    intros R Hs Hp. simpl in Hs. rewrite S1 in Hs.
    apply andb_true_iff in Hs as [Hev Hrest].
    apply (IH _ _ R Hrest).
    apply (step_serialised _ _ _ S1); [|exact Hp].
    apply negb_true_iff, Hev.
Qed.

End Runs.

(** A finite coordinate compared with itself is below the threshold. *)
Lemma same_fix_unchanged (la lo : float) :
  is_finite la = true -> is_finite lo = true ->
  unchanged (Some {| lat := la; lon := lo |}) la lo = true.
Proof.
  intros Hla Hlo. unfold unchanged, THRESHOLD. cbn [lat lon].
  rewrite !ltb_spec, (abs_sub_diag la Hla), (abs_sub_diag lo Hlo).
  vm_compute. reflexivity.
Qed.

(** C7, as worded, fails on the code: two fixes 0.0002 degrees apart,
    delivered one after the other with no settlement in between, leave two
    resolver calls in flight. *)
Lemma overlapping_calls_counterexample :
  option_map pending
    (run someAi (mounted (Some 7%N))
       [Fix (fixAt 45.0 4.8); Fix (fixAt 45.0002 4.8)])
  = Some [ {| arg_lat := 45.0; arg_lon := 4.8 |};
           {| arg_lat := 45.0002; arg_lon := 4.8 |} ].
Proof. vm_compute. reflexivity. Qed.

(** C7, amended.  Nothing serialises resolver calls: along any event
    sequence the calls in flight are the calls issued less the
    settlements, so a fix accepted before the previous call settles puts
    a second call in flight.  At most one call is in flight along the
    sequences in which no fix is accepted while a call is pending. *)
Theorem calls_in_flight :
  forall (ai : GoogleGenAI) (w : World) (evs : list Event) (w' : World),
    run ai w evs = Some w' ->
    (List.length (pending w') + settlements evs + List.length (calls w)
     = List.length (pending w) + List.length (calls w'))%nat
    /\ (serialised ai w evs = true ->
        (List.length (pending w) <= 1)%nat ->
        (List.length (pending w') <= 1)%nat).
Proof.
  intros ai w evs w' R. split.
  - apply run_balance with (ai := ai), R.
  - apply run_serialised, R.
Qed.

Lemma calls_in_flight_witness :
  (List.length (pending journeyEnd) + settlements journey
   + List.length (calls (mounted (Some 7%N)))
   = List.length (pending (mounted (Some 7%N))) + List.length (calls journeyEnd))%nat
  /\ (List.length (pending journeyEnd) <= 1)%nat.
Proof.
  destruct (calls_in_flight someAi (mounted (Some 7%N)) journey journeyEnd)
    as (B & S).
  - vm_compute. reflexivity.
  - split; [exact B|]. apply S.
    + vm_compute. reflexivity.
    + apply Nat.le_0_l.
Defined.

(** C8.  After any event sequence the stored coordinate is the most
    recent fix that passed the filter, which is also the coordinate of
    the latest call issued.  It is written when the fix is accepted, while
    the call is still pending, and no settlement, failed or not, changes
    it: the same fix delivered again after the lookup has settled is
    dropped. *)
Theorem lastPosition_is_latest_accepted :
  forall (ai : GoogleGenAI) (w : World) (evs : list Event) (w' : World),
    run ai w evs = Some w' ->
    lastPosition (app w') = lastAccepted (lastPosition (app w)) evs
    /\ (lastPosition (app w) = option_map coordsOf (hd_error (calls w)) ->
        lastPosition (app w') = option_map coordsOf (hd_error (calls w')))
    /\ (forall (b : GeolocationPosition) (w1 : World),
          accepts (app w') b = true ->
          step ai w' (Fix b) = Some w1 ->
          lastPosition (app w1)
          = Some {| lat := latitude (coords b); lon := longitude (coords b) |}
          /\ In {| arg_lat := latitude (coords b);
                   arg_lon := longitude (coords b) |} (pending w1)
          /\ forall (k : nat) (gc : Settled GenerateContentResponse) (w2 : World),
               step ai w1 (Settle k gc) = Some w2 ->
               lastPosition (app w2) = lastPosition (app w1)
               /\ (is_finite (latitude (coords b)) = true ->
                   is_finite (longitude (coords b)) = true ->
                   step ai w2 (Fix b) = Some w2)).
Proof.
  intros ai w evs w' R. split; [|split].
  - apply run_lastPosition with (ai := ai), R.
  - apply run_latest_call with (ai := ai) (evs := evs), R.
  - intros b w1 Hacc S1. rewrite accepts_unchanged in Hacc.
    apply negb_true_iff in Hacc.
    rewrite (step_Fix_changed ai w' b Hacc) in S1. injection S1 as <-.
    cbn [app pending lastPosition]. split; [reflexivity|]. split.
    + apply in_or_app. right. left. reflexivity.
    + intros k gc w2 S2.
      pose proof (step_lastPosition ai _ _ _ S2) as L.
      cbn [app lastPosition lastAccepted] in L. split; [exact L|].
      intros Hla Hlo. apply step_Fix_unchanged. rewrite L.
      apply same_fix_unchanged; assumption.
Qed.

Lemma lastPosition_is_latest_accepted_witness :
  lastPosition (app journeyEnd) = Some {| lat := 45.0002; lon := 4.8 |}
  /\ lastAccepted (lastPosition (app (mounted (Some 7%N)))) journey
     = Some {| lat := 45.0002; lon := 4.8 |}
  /\ option_map coordsOf (hd_error (calls journeyEnd))
     = Some {| lat := 45.0002; lon := 4.8 |}
  /\ lastPosition (app detourPending) = Some {| lat := 46.0; lon := 4.8 |}
  /\ lastPosition (app detourFailed) = Some {| lat := 46.0; lon := 4.8 |}
  /\ status (app detourFailed) = ERROR
  /\ step someAi detourFailed (Fix detour) = Some detourFailed.
Proof.
  destruct (lastPosition_is_latest_accepted someAi (mounted (Some 7%N))
              journey journeyEnd) as (H1 & H2 & H3).
  - vm_compute. reflexivity.
  - split; [reflexivity|]. split; [reflexivity|].
    split; [rewrite <- H2; reflexivity|].
    destruct (H3 detour detourPending) as (P1 & _ & P3);
      [reflexivity | reflexivity |].
    destruct (P3 1%nat (Fulfilled (mkResponse None)) detourFailed)
      as (Q1 & Q2); [reflexivity|].
    split; [exact P1|]. split; [rewrite Q1; exact P1|].
    split; [reflexivity|].
    apply Q2; reflexivity.
Defined.

(** The scenario of the specification: of three fixes the second is
    dropped, and two calls are issued. *)
Example three_fixes :
  option_map calls
    (run someAi (mounted (Some 7%N))
       [Fix (fixAt 45.0000 4.8000); Fix (fixAt 45.00005 4.8000);
        Fix (fixAt 45.0002 4.8000)])
  = Some [ {| arg_lat := 45.0002; arg_lon := 4.8 |};
           {| arg_lat := 45.0; arg_lon := 4.8 |} ].
Proof. vm_compute. reflexivity. Qed.

(** A failed lookup does not give the filter its old coordinate back: the
    fix that triggered it, delivered again, issues no second call. *)
Example same_fix_after_failure :
  option_map (fun w => (status (app w), calls w, pending w))
    (run someAi (mounted (Some 7%N))
       [Fix (fixAt 45.0 4.8);
        Settle 0 (Rejected (mkError (lit "Failed to fetch")));
        Fix (fixAt 45.0 4.8)])
  = Some (ERROR, [ {| arg_lat := 45.0; arg_lon := 4.8 |} ], []).
Proof. vm_compute. reflexivity. Qed.

(** ** Trimming and stripping *)

Section Trimming.

Lemma trimStart_blank s :
  trimStart s = [] <-> forallb isWhiteSpace s = true.
Proof.
  induction s as [|c s IH]; simpl; [tauto|].
  destruct (isWhiteSpace c); simpl; [exact IH|].
  split; discriminate.
Qed.

Lemma trimStart_hd s c r :
  trimStart s = c :: r -> isWhiteSpace c = false.
Proof.
  induction s as [|x s IH]; simpl; [discriminate|].
  destruct (isWhiteSpace x) eqn:W; [exact IH|].
  intros [= <- _]. exact W.
Qed.

Lemma trimStart_fixed c r :
  isWhiteSpace c = false -> trimStart (c :: r) = c :: r.
Proof. intros W. simpl. rewrite W. reflexivity. Qed.


(** What [trimStart] removes is a run of white space. *)
Lemma trimStart_split s :
  exists ws, s = ws ++ trimStart s /\ forallb isWhiteSpace ws = true.
Proof.
  induction s as [|c s (ws & E & W)]; [exists []; auto|].
  simpl. destruct (isWhiteSpace c) eqn:C.
  - exists (c :: ws). simpl. rewrite C, W. split; [f_equal; exact E | reflexivity].
  - exists []. auto.
Qed.

Lemma forallb_rev {A} (f : A -> bool) l : forallb f (rev l) = forallb f l.
Proof.
  induction l as [|x l IH]; [reflexivity|].
  simpl. rewrite forallb_app, IH. simpl. rewrite andb_true_r. apply andb_comm.
Qed.

(** Trimming the end of a string that starts with a visible code unit
    keeps that code unit at the start. *)
Lemma trimEnd_hd c r :
  isWhiteSpace c = false -> exists r', trimEnd (c :: r) = c :: r'.
Proof.
  intros W. unfold trimEnd.
  destruct (trimStart_split (rev (c :: r))) as (ws & E & Hws).
  destruct (trimStart (rev (c :: r))) as [|x t] eqn:T.
  - apply trimStart_blank in T. rewrite forallb_rev in T.
    simpl in T. rewrite W in T. discriminate.
  - apply (f_equal (@rev _)) in E. rewrite rev_involutive, rev_app_distr in E.
    destruct (rev (x :: t)) as [|y t'] eqn:R.
    + apply (f_equal (@List.length _)) in R. rewrite length_rev in R.
      discriminate.
    + simpl in E. injection E as <- _. eauto.
Qed.

(** Trimming the end of a string that ends with a visible code unit
    changes nothing. *)
Lemma trimEnd_fixed l c :
  isWhiteSpace c = false -> trimEnd (l ++ [c]) = l ++ [c].
Proof.
  intros W. unfold trimEnd. rewrite rev_app_distr. simpl. rewrite W.
  simpl. rewrite rev_involutive. reflexivity.
Qed.

Lemma trim_blank s : trim s = [] <-> forallb isWhiteSpace s = true.
Proof.
  rewrite <- trimStart_blank. unfold trim.
  destruct (trimStart s) as [|c r] eqn:T; [split; reflexivity|].
  destruct (trimEnd_hd c r (trimStart_hd _ _ _ T)) as (r' & ->).
  split; discriminate.
Qed.


Lemma stripFormatting_unformatted s : unformatted (stripFormatting s) = true.
Proof.
  unfold unformatted, stripFormatting. apply forallb_forall.
  intros c H. apply filter_In in H. apply H.
Qed.

Lemma stripFormatting_id s : unformatted s = true -> stripFormatting s = s.
Proof.
  unfold unformatted, stripFormatting.
  induction s as [|c s IH]; [reflexivity|]. simpl.
  intros H. apply andb_true_iff in H as [Hc Hs]. rewrite Hc, (IH Hs). reflexivity.
Qed.

Lemma stripFormatting_all s :
  forallb isFormatting s = true -> stripFormatting s = [].
Proof.
  unfold stripFormatting. induction s as [|c s IH]; [reflexivity|]. simpl.
  intros H. apply andb_true_iff in H as [Hc Hs]. rewrite Hc. simpl. exact (IH Hs).
Qed.

Lemma stripFormatting_length s :
  (List.length (stripFormatting s) <= List.length s)%nat.
Proof. apply filter_length_le. Qed.

Lemma trimStart_length s : (List.length (trimStart s) <= List.length s)%nat.
Proof.
  induction s as [|c s IH]; simpl; [lia|].
  destruct (isWhiteSpace c); simpl; lia.
Qed.

Lemma trim_length s : (List.length (trim s) <= List.length s)%nat.
Proof.
  unfold trim, trimEnd. rewrite length_rev.
  pose proof (trimStart_length (rev (trimStart s))) as H.
  rewrite length_rev in H. pose proof (trimStart_length s). lia.
Qed.

(** The resolver on a response that has text. *)
Lemma getTownFromCoordinates_text ai la lo t :
  getTownFromCoordinates ai la lo (Fulfilled (mkResponse (Some t)))
  = if truthy (trim t) then Fulfilled (stripFormatting (trim t))
    else Rejected FETCH_FAILED.
Proof.
  unfold getTownFromCoordinates, tryBlock. cbn [text].
  destruct (truthy (trim t)); reflexivity.
Qed.

Lemma truthy_false s : truthy s = false <-> s = [].
Proof. destruct s; simpl; split; congruence. Qed.

End Trimming.

(** ** More on the resolver *)

(** X2.  A response with text is rejected exactly when the text holds nothing
    but white space (the empty text included). *)
Theorem blank_response_rejected :
  forall (ai : GoogleGenAI) (la lo : float) (t : JsString),
    forallb isWhiteSpace t = true <->
    getTownFromCoordinates ai la lo (Fulfilled (mkResponse (Some t)))
    = Rejected FETCH_FAILED.
Proof.
  intros ai la lo t. rewrite getTownFromCoordinates_text, <- trim_blank.
  destruct (trim t) as [|c r]; simpl; split; congruence.
Qed.

(** X3.  A resolved name is the trimmed text of the response with its backticks
    and asterisks deleted: it holds neither character, the text it comes
    from is not blank, and it is no longer than that text. *)
Theorem resolved_name_is_stripped :
  forall (ai : GoogleGenAI) (la lo : float)
         (gc : Settled GenerateContentResponse) (s : JsString),
    getTownFromCoordinates ai la lo gc = Fulfilled s ->
    unformatted s = true
    /\ exists t, gc = Fulfilled (mkResponse (Some t))
         /\ forallb isWhiteSpace t = false
         /\ s = stripFormatting (trim t)
         /\ (List.length s <= List.length t)%nat.
Proof.
  intros ai la lo gc s H.
  destruct gc as [[[t|]] | e]; try discriminate H.
  rewrite getTownFromCoordinates_text in H.
  destruct (truthy (trim t)) eqn:T; [|discriminate].
  injection H as <-. split; [apply stripFormatting_unformatted|].
  exists t. split; [reflexivity|]. split; [|split; [reflexivity|]].
  - destruct (forallb isWhiteSpace t) eqn:B; [|reflexivity].
    apply trim_blank in B. rewrite B in T. discriminate.
  - pose proof (stripFormatting_length (trim t)). pose proof (trim_length t). lia.
Qed.

Lemma resolved_name_is_stripped_witness :
  unformatted (lit "Lyon") = true
  /\ exists t, replies " **Lyon**
" = Fulfilled (mkResponse (Some t))
       /\ forallb isWhiteSpace t = false
       /\ lit "Lyon" = stripFormatting (trim t)
       /\ (List.length (lit "Lyon") <= List.length t)%nat.
Proof.
  apply (resolved_name_is_stripped someAi 45.75 4.85 (replies " **Lyon**
") (lit "Lyon")).
  reflexivity.
Defined.



(** X5.  Stripping comes after trimming and is not followed by a second trim:
    white space that sat next to a deleted marker stays in the name.  A
    text made of an asterisk and then [body ++ [c]], free of markers and
    ending in the visible code unit [c], resolves to [body ++ [c]] as it
    is, leading white space included. *)
Theorem marker_leaves_white_space :
  forall (ai : GoogleGenAI) (la lo : float) (body : JsString) (c : code_unit),
    isWhiteSpace c = false ->
    unformatted (body ++ [c]) = true ->
    getTownFromCoordinates ai la lo
      (Fulfilled (mkResponse (Some (ASTERISK :: body ++ [c]))))
    = Fulfilled (body ++ [c]).
Proof.
  intros ai la lo body c W U.
  assert (T : trim (ASTERISK :: body ++ [c]) = ASTERISK :: body ++ [c]).
  { unfold trim. rewrite trimStart_fixed by reflexivity.
    apply (trimEnd_fixed (ASTERISK :: body) c W). }
  rewrite getTownFromCoordinates_text, T. cbn [truthy].
  unfold stripFormatting. cbn [filter].
  change (isFormatting ASTERISK) with true. cbn [negb].
  f_equal. apply stripFormatting_id, U.
Qed.

Lemma marker_leaves_white_space_witness :
  getTownFromCoordinates someAi 45.75 4.85 (replies "* Lyon")
  = Fulfilled (lit " Lyon").
Proof.
  apply (marker_leaves_white_space someAi 45.75 4.85 (lit " Lyo") 110%N);
    reflexivity.
Defined.

(** X6.  Loading the resolver module throws exactly when the key is undefined
    or the empty string; otherwise the client is built with the key as it
    is, white space and all. *)
Theorem load_outcomes :
  forall (key : option JsString),
    (load key = Throws MISSING_KEY <-> key = None \/ key = Some [])
    /\ (forall ai, load key = Exports ai <->
                   key = Some (apiKey ai) /\ apiKey ai <> [])
    /\ (forall e, load key = Throws e -> e = MISSING_KEY).
Proof.
  intros key. split; [|split].
  - destruct key as [[|c k]|]; cbn [load truthy negb]; split; auto.
    + discriminate.
    + intros [H | H]; discriminate.
  - intros [a]. cbn [apiKey].
    destruct key as [[|c k]|]; cbn [load truthy negb]; split;
      try discriminate; try (intros [H _]; discriminate).
    + intros [[= <-] N]. congruence.
    + intros [= <-]. split; [reflexivity | discriminate].
    + intros [[= <-] _]. reflexivity.
  - intros e. destruct key as [[|c k]|]; cbn [load truthy negb];
      congruence.
Qed.

(** ** Invariants of the component *)

Section Invariants.

Local Open Scope nat_scope.

Variable ai : GoogleGenAI.

Lemma errorMessage_nonempty e : errorMessage e <> [].
Proof.
  unfold errorMessage.
  destruct (code e =? PERMISSION_DENIED)%N;
    [|destruct (code e =? POSITION_UNAVAILABLE)%N;
      [|destruct (code e =? TIMEOUT)%N]];
    vm_compute; discriminate.
Qed.

Lemma LOOKUP_FAILED_nonempty : LOOKUP_FAILED <> [].
Proof. vm_compute. discriminate. Qed.

Lemma UNSUPPORTED_nonempty : UNSUPPORTED <> [].
Proof. vm_compute. discriminate. Qed.

(** The three kinds of step, spelled out. *)
Lemma step_WatchError w e :
  step ai w (WatchError e)
  = Some {| app := {| town := town (app w); status := ERROR;
                      error := Some (errorMessage e);
                      watchId := watchId (app w);
                      lastPosition := lastPosition (app w) |};
            pending := pending w; calls := calls w |}.
Proof. reflexivity. Qed.

Lemma step_Settle_fulfilled w k c gc s :
  nth_error (pending w) k = Some c ->
  getTownFromCoordinates ai (arg_lat c) (arg_lon c) gc = Fulfilled s ->
  step ai w (Settle k gc)
  = Some {| app := {| town := Some s; status := SUCCESS; error := None;
                      watchId := watchId (app w);
                      lastPosition := lastPosition (app w) |};
            pending := remove_nth k (pending w); calls := calls w |}.
Proof. intros K G. unfold step. rewrite K, G. reflexivity. Qed.

Lemma step_Settle_rejected w k c gc e :
  nth_error (pending w) k = Some c ->
  getTownFromCoordinates ai (arg_lat c) (arg_lon c) gc = Rejected e ->
  step ai w (Settle k gc)
  = Some {| app := {| town := town (app w); status := ERROR;
                      error := Some LOOKUP_FAILED;
                      watchId := watchId (app w);
                      lastPosition := lastPosition (app w) |};
            pending := remove_nth k (pending w); calls := calls w |}.
Proof. intros K G. unfold step. rewrite K, G. reflexivity. Qed.

(** Case analysis on a step that took place. *)
Lemma step_cases w ev w' :
  step ai w ev = Some w' ->
  (exists b, ev = Fix b /\ w' = w
     /\ unchanged (lastPosition (app w)) (latitude (coords b))
          (longitude (coords b)) = true)
  \/ (exists b, ev = Fix b
        /\ unchanged (lastPosition (app w)) (latitude (coords b))
             (longitude (coords b)) = false
        /\ step ai w (Fix b) = Some w'
        /\ status (app w') = GEOCODING)
  \/ (exists e, ev = WatchError e /\ status (app w') = ERROR
        /\ error (app w') = Some (errorMessage e))
  \/ (exists k gc s, ev = Settle k gc /\ status (app w') = SUCCESS
        /\ town (app w') = Some s /\ error (app w') = None)
  \/ (exists k gc, ev = Settle k gc /\ status (app w') = ERROR
        /\ error (app w') = Some LOOKUP_FAILED
        /\ town (app w') = town (app w)).
Proof.
  destruct ev as [b | e | k gc]; intros S1.
  - destruct (unchanged (lastPosition (app w)) (latitude (coords b))
                (longitude (coords b))) eqn:U.
    + left. exists b. rewrite (step_Fix_unchanged ai w b U) in S1.
      injection S1 as <-. auto.
    + right. left. exists b. split; [reflexivity|]. split; [exact U|].
      split; [exact S1|]. rewrite (step_Fix_changed ai w b U) in S1.
      injection S1 as <-. reflexivity.
  - right. right. left. exists e. rewrite step_WatchError in S1.
    injection S1 as <-. auto.
  - pose proof S1 as S2. unfold step in S2.
    destruct (nth_error (pending w) k) as [c|] eqn:K; [|discriminate].
    destruct (getTownFromCoordinates ai (arg_lat c) (arg_lon c) gc)
      as [s | e] eqn:G.
    + right. right. right. left. exists k, gc, s.
      rewrite (step_Settle_fulfilled w k c gc s K G) in S1.
      injection S1 as <-. auto.
    + right. right. right. right. exists k, gc.
      rewrite (step_Settle_rejected w k c gc e K G) in S1.
      injection S1 as <-. auto.
Qed.

Lemma step_watchId w ev w' :
  step ai w ev = Some w' -> watchId (app w') = watchId (app w).
Proof.
  destruct ev as [b | e | k gc]; intros S1.
  - destruct (unchanged (lastPosition (app w)) (latitude (coords b))
                (longitude (coords b))) eqn:U.
    + rewrite (step_Fix_unchanged ai w b U) in S1. injection S1 as <-.
      reflexivity.
    + rewrite (step_Fix_changed ai w b U) in S1. injection S1 as <-.
      reflexivity.
  - rewrite step_WatchError in S1. injection S1 as <-. reflexivity.
  - unfold step in S1.
    destruct (nth_error (pending w) k) as [c|]; [|discriminate].
    injection S1 as <-.
    destruct (getTownFromCoordinates ai (arg_lat c) (arg_lon c) gc); reflexivity.
Qed.

Lemma run_watchId evs : forall w w',
  run ai w evs = Some w' -> watchId (app w') = watchId (app w).
Proof.
  induction evs as [|ev evs IH]; intros w w'; simpl run.
  - intros [= <-]. reflexivity.
  - destruct (step ai w ev) as [w1|] eqn:S1; [|discriminate].
    intros R. rewrite (IH _ _ R). apply (step_watchId _ _ _ S1).
Qed.

Lemma step_coherent w ev w' :
  step ai w ev = Some w' -> coherent w -> coherent w'.
Proof.
  intros S1 C.
  destruct (step_cases _ _ _ S1)
    as [(b & _ & -> & _) | [(b & -> & U & _ & _) | [(e & _ & St & Er)
        | [(k & gc & s & _ & St & T & Er) | (k & gc & _ & St & Er & _)]]]].
  - exact C.
  - rewrite (step_Fix_changed ai w b U) in S1. injection S1 as <-.
    unfold coherent. cbn [app status pending lastPosition]. split.
    + destruct (pending w); discriminate.
    + discriminate.
  - unfold coherent. rewrite St. exists (errorMessage e).
    split; [exact Er | apply errorMessage_nonempty].
  - unfold coherent. rewrite St. split; [exact Er | eauto].
  - unfold coherent. rewrite St. exists LOOKUP_FAILED.
    split; [exact Er | apply LOOKUP_FAILED_nonempty].
Qed.

Lemma mounted_coherent g : coherent (mounted g).
Proof.
  destruct g as [id|]; unfold coherent; cbn.
  - auto.
  - exists UNSUPPORTED. split; [reflexivity | apply UNSUPPORTED_nonempty].
Qed.

Lemma run_coherent evs : forall w w',
  run ai w evs = Some w' -> coherent w -> coherent w'.
Proof.
  induction evs as [|ev evs IH]; intros w w'; simpl run.
  - intros [= <-]. auto.
  - destruct (step ai w ev) as [w1|] eqn:S1; [|discriminate].
    intros R C. apply (IH _ _ R), (step_coherent _ _ _ S1 C).
Qed.

Lemma step_spaced w ev w' :
  step ai w ev = Some w' ->
  lastPosition (app w) = option_map coordsOf (hd_error (calls w)) ->
  spaced (calls w) = true ->
  spaced (calls w') = true.
Proof.
  intros S1 L Sp.
  destruct ev as [b | e | k gc].
  - destruct (unchanged (lastPosition (app w)) (latitude (coords b))
                (longitude (coords b))) eqn:U.
    + rewrite (step_Fix_unchanged ai w b U) in S1. injection S1 as <-.
      exact Sp.
    + rewrite (step_Fix_changed ai w b U) in S1. injection S1 as <-.
      cbn [calls spaced arg_lat arg_lon]. rewrite Sp, andb_true_r.
      rewrite L in U. destruct (calls w) as [|p older]; [reflexivity|].
      cbn [hd_error option_map] in U. rewrite U. reflexivity.
  - rewrite step_WatchError in S1. injection S1 as <-. exact Sp.
  - unfold step in S1.
    destruct (nth_error (pending w) k) as [c|]; [|discriminate].
    injection S1 as <-. exact Sp.
Qed.

Lemma run_spaced evs : forall w w',
  run ai w evs = Some w' ->
  lastPosition (app w) = option_map coordsOf (hd_error (calls w)) ->
  spaced (calls w) = true ->
  spaced (calls w') = true.
Proof.
  induction evs as [|ev evs IH]; intros w w'; simpl run.
  - intros [= <-]. auto.
  - destruct (step ai w ev) as [w1|] eqn:S1; [|discriminate].
    intros R L Sp. apply (IH _ _ R).
    + apply (step_latest_call ai _ _ _ S1 L).
    + apply (step_spaced _ _ _ S1 L Sp).
Qed.

(** Without a settlement the town stays, and a message stays a message. *)
Lemma run_no_settlement evs : forall w w',
  run ai w evs = Some w' ->
  settlements evs = 0 ->
  town (app w') = town (app w)
  /\ (error (app w) <> None -> error (app w') <> None).
Proof.
  induction evs as [|ev evs IH]; intros w w'; simpl run.
  - intros [= <-]. auto.
  - destruct (step ai w ev) as [w1|] eqn:S1; [|discriminate].
    intros R Z.
    assert (Z' : settlements evs = 0) by (destruct ev; simpl in Z; congruence).
    destruct (IH _ _ R Z') as (T & E).
    destruct ev as [b | e | k gc]; [| |discriminate Z].
    + destruct (unchanged (lastPosition (app w)) (latitude (coords b))
                  (longitude (coords b))) eqn:U.
      * rewrite (step_Fix_unchanged ai w b U) in S1. injection S1 as <-. auto.
      * rewrite (step_Fix_changed ai w b U) in S1. injection S1 as <-.
        cbn [app town error] in T, E. auto.
    + rewrite step_WatchError in S1. injection S1 as <-.
      cbn [app town error] in T, E. split; [exact T|].
      intros _. apply E. discriminate.
Qed.

(** A town, once resolved, is replaced but never cleared. *)
Lemma run_town_kept evs : forall w w',
  run ai w evs = Some w' ->
  town (app w) <> None -> town (app w') <> None.
Proof.
  induction evs as [|ev evs IH]; intros w w'; simpl run.
  - intros [= <-]. auto.
  - destruct (step ai w ev) as [w1|] eqn:S1; [|discriminate].
    intros R T. apply (IH _ _ R).
    destruct (step_cases _ _ _ S1)
      as [(b & _ & -> & _) | [(b & -> & U & _ & _) | [(e & -> & _)
          | [(k & gc & s & _ & _ & Ts & _) | (k & gc & _ & _ & _ & Tk)]]]].
    + exact T.
    + rewrite (step_Fix_changed ai w b U) in S1. injection S1 as <-. exact T.
    + rewrite step_WatchError in S1. injection S1 as <-. exact T.
    + rewrite Ts. discriminate.
    + rewrite Tk. exact T.
Qed.

End Invariants.

(** X7.  Whatever events occur in between, unmounting releases exactly the
    watch that mounting registered, and nothing when none was registered:
    no handler writes the [watchId] ref. *)
Theorem watch_released_on_unmount :
  forall (ai : GoogleGenAI) (g : option N) (evs : list Event) (w : World),
    run ai (mounted g) evs = Some w ->
    watchId (app w) = g /\ unmount g (app w) = g.
Proof.
  intros ai g evs w R.
  assert (W : watchId (app w) = g).
  { rewrite (run_watchId ai evs _ _ R). destruct g; reflexivity. }
  split; [exact W|].
  unfold unmount, cleanup. rewrite W. destruct g; reflexivity.
Qed.

Lemma watch_released_on_unmount_witness :
  watchId (app journeyEnd) = Some 7%N
  /\ unmount (Some 7%N) (app journeyEnd) = Some 7%N.
Proof.
  apply (watch_released_on_unmount someAi (Some 7%N) journey journeyEnd).
  vm_compute. reflexivity.
Defined.

(** X8.  What the status says about the rest of the state, after any events
    from mounting on.  The status is never Idle again.  Locating: nothing
    is shown and no call was made.  Geocoding: a call is pending and a
    position is stored.  Success: a town is set and no message is.
    Error: a message is set, and it is not empty. *)
Theorem status_invariants :
  forall (ai : GoogleGenAI) (g : option N) (evs : list Event) (w : World),
    run ai (mounted g) evs = Some w ->
    status (app w) <> IDLE
    /\ (status (app w) = LOCATING ->
        town (app w) = None /\ error (app w) = None
        /\ lastPosition (app w) = None /\ calls w = [])
    /\ (status (app w) = GEOCODING ->
        pending w <> [] /\ lastPosition (app w) <> None)
    /\ (status (app w) = SUCCESS ->
        error (app w) = None /\ exists t, town (app w) = Some t)
    /\ (status (app w) = ERROR ->
        exists m, error (app w) = Some m /\ m <> []).
Proof.
  intros ai g evs w R.
  pose proof (run_coherent ai evs _ _ R (mounted_coherent g)) as C.
  unfold coherent in C.
  destruct (status (app w)); [contradiction| | | |];
    (split; [discriminate|]);
    repeat match goal with
           | |- _ /\ _ => split
           | |- _ = _ -> _ =>
               let E := fresh "E" in
               intros E; first [discriminate E | exact C]
           end.
Qed.

Lemma status_invariants_witness :
  status (app journeyEnd) = GEOCODING
  /\ pending journeyEnd <> [] /\ lastPosition (app journeyEnd) <> None.
Proof.
  destruct (status_invariants someAi (Some 7%N) journey journeyEnd)
    as (_ & _ & G & _).
  - vm_compute. reflexivity.
  - split; [reflexivity|]. apply G. reflexivity.
Defined.

(** X9.  Only a settlement touches the town: along events without one the town
    is what it was, and a message, though it may be replaced, is not
    cleared.  Along any events a town once set stays set. *)
Theorem town_persistence :
  forall (ai : GoogleGenAI) (w : World) (evs : list Event) (w' : World),
    run ai w evs = Some w' ->
    (settlements evs = 0%nat ->
     town (app w') = town (app w)
     /\ (error (app w) <> None -> error (app w') <> None))
    /\ (town (app w) <> None -> town (app w') <> None).
Proof.
  intros ai w evs w' R. split.
  - apply (run_no_settlement ai evs _ _ R).
  - apply (run_town_kept ai evs _ _ R).
Qed.

Lemma town_persistence_witness :
  town (app (worldAfter
               (idleWorld (showing (Some (lit "Lyon")) (Some LOOKUP_FAILED)
                             ERROR 45.75 4.85))
               [Fix (fixAt 45.9 4.85); WatchError (mkPositionError 3)]))
  = Some (lit "Lyon")
  /\ error (app (worldAfter
                   (idleWorld (showing (Some (lit "Lyon")) (Some LOOKUP_FAILED)
                                 ERROR 45.75 4.85))
                   [Fix (fixAt 45.9 4.85); WatchError (mkPositionError 3)]))
     <> None.
Proof.
  destruct (town_persistence someAi
              (idleWorld (showing (Some (lit "Lyon")) (Some LOOKUP_FAILED)
                            ERROR 45.75 4.85))
              [Fix (fixAt 45.9 4.85); WatchError (mkPositionError 3)]
              (worldAfter
                 (idleWorld (showing (Some (lit "Lyon")) (Some LOOKUP_FAILED)
                               ERROR 45.75 4.85))
                 [Fix (fixAt 45.9 4.85); WatchError (mkPositionError 3)]))
    as (H & _).
  - vm_compute. reflexivity.
  - destruct (H eq_refl) as (T & E). split.
    + rewrite T. reflexivity.
    + apply E. discriminate.
Defined.

(** X10.  The resolver is never called twice in a row for positions the filter
    does not tell apart: in the log of calls, each call's position differs
    from the previous call's by the threshold on some axis. *)
Theorem issued_calls_are_spaced :
  forall (ai : GoogleGenAI) (g : option N) (evs : list Event) (w : World),
    run ai (mounted g) evs = Some w ->
    spaced (calls w) = true.
Proof.
  intros ai g evs w R.
  apply (run_spaced ai evs _ _ R).
  - destruct g; reflexivity.
  - reflexivity.
Qed.

Lemma issued_calls_are_spaced_witness :
  spaced (calls journeyEnd) = true
  /\ calls journeyEnd = [ {| arg_lat := 45.0002; arg_lon := 4.8 |};
                          {| arg_lat := 45.0; arg_lon := 4.8 |} ].
Proof.
  split.
  - apply (issued_calls_are_spaced someAi (Some 7%N) journey journeyEnd).
    vm_compute. reflexivity.
  - vm_compute. reflexivity.
Defined.

(** X11.  A fix with finite coordinates delivered twice in a row acts as if
    delivered once: the second delivery is dropped, whether or not the
    first was. *)
Theorem repeated_fix_is_dropped :
  forall (ai : GoogleGenAI) (w : World) (b : GeolocationPosition)
         (evs : list Event),
    is_finite (latitude (coords b)) = true ->
    is_finite (longitude (coords b)) = true ->
    run ai w (Fix b :: Fix b :: evs) = run ai w (Fix b :: evs).
Proof.
  intros ai w b evs Hla Hlo.
  destruct (unchanged (lastPosition (app w)) (latitude (coords b))
              (longitude (coords b))) eqn:U.
  - cbn [run]. rewrite (step_Fix_unchanged ai w b U).
    cbn [run]. rewrite (step_Fix_unchanged ai w b U). reflexivity.
  - cbn [run]. rewrite (step_Fix_changed ai w b U). cbv zeta.
    cbn [run]. rewrite step_Fix_unchanged; [reflexivity|].
    cbn [app lastPosition]. apply same_fix_unchanged; assumption.
Qed.

Lemma repeated_fix_is_dropped_witness :
  run someAi (mounted (Some 7%N))
    [Fix (fixAt 45.75 4.85); Fix (fixAt 45.75 4.85)]
  = run someAi (mounted (Some 7%N)) [Fix (fixAt 45.75 4.85)].
Proof.
  apply (repeated_fix_is_dropped someAi (mounted (Some 7%N))
           (fixAt 45.75 4.85) []); reflexivity.
Defined.

(** A difference with a NaN operand is never below the threshold. *)
Lemma abs_sub_nan x y t :
  is_nan x = true \/ is_nan y = true -> (abs (x - y) <? t) = false.
Proof.
  intros H. rewrite ltb_spec, abs_spec, sub_spec.
  rewrite !is_nan_spec in H. unfold SF64sub, SFsub.
  destruct H as [-> | ->]; [reflexivity|].
  destruct (Prim2SF x) as [s|s| |s m e]; reflexivity.
Qed.

(** X12.  The filter lets every fix through when a NaN is involved: a NaN
    latitude or longitude, in the fix or in the stored position, makes
    the comparison on that axis false, and the fix is accepted. *)
Theorem nan_is_never_filtered :
  forall (s : State) (b : GeolocationPosition),
    (is_nan (latitude (coords b)) = true
     \/ is_nan (longitude (coords b)) = true
     \/ exists a, lastPosition s = Some a
          /\ (is_nan (lat a) = true \/ is_nan (lon a) = true)) ->
    accepts s b = true.
Proof.
  intros s b H. rewrite accepts_unchanged. apply negb_true_iff.
  unfold unchanged. destruct (lastPosition s) as [a|]; [|reflexivity].
  destruct H as [H | [H | (a' & [= <-] & [H | H])]].
  - rewrite (abs_sub_nan (lat a) _ THRESHOLD); auto.
  - rewrite (abs_sub_nan (lon a) _ THRESHOLD); auto. apply andb_false_r.
  - rewrite (abs_sub_nan (lat a) _ THRESHOLD); auto.
  - rewrite (abs_sub_nan (lon a) _ THRESHOLD); auto. apply andb_false_r.
Qed.

Lemma nan_is_never_filtered_witness :
  accepts (showing None None SUCCESS nan 4.85) (fixAt nan 4.85) = true.
Proof.
  apply (nan_is_never_filtered (showing None None SUCCESS nan 4.85)
           (fixAt nan 4.85)).
  left. reflexivity.
Defined.

(** X13.  With two calls pending, the one that settles last decides what is
    shown.  If the older call settles last, its answer replaces the
    newer call's, while the stored position is still the newer fix. *)
Theorem last_settlement_wins :
  forall (ai : GoogleGenAI) (w : World) (c1 c2 : Call)
         (g1 g2 : Settled GenerateContentResponse) (s1 s2 : JsString),
    pending w = [c1; c2] ->
    getTownFromCoordinates ai (arg_lat c1) (arg_lon c1) g1 = Fulfilled s1 ->
    getTownFromCoordinates ai (arg_lat c2) (arg_lon c2) g2 = Fulfilled s2 ->
    (exists w', run ai w [Settle 0 g1; Settle 0 g2] = Some w'
       /\ town (app w') = Some s2 /\ pending w' = []
       /\ lastPosition (app w') = lastPosition (app w))
    /\ (exists w', run ai w [Settle 1 g2; Settle 0 g1] = Some w'
          /\ town (app w') = Some s1 /\ pending w' = []
          /\ lastPosition (app w') = lastPosition (app w)).
Proof.
  intros ai w c1 c2 g1 g2 s1 s2 P G1 G2. split.
  - cbn [run].
    rewrite (step_Settle_fulfilled ai w 0 c1 g1 s1); [|rewrite P; reflexivity | exact G1].
    rewrite P. cbn [remove_nth].
    erewrite step_Settle_fulfilled; [|reflexivity | exact G2].
    eexists. split; [reflexivity|]. repeat split.
  - cbn [run].
    rewrite (step_Settle_fulfilled ai w 1 c2 g2 s2); [|rewrite P; reflexivity | exact G2].
    rewrite P. cbn [remove_nth].
    erewrite step_Settle_fulfilled; [|reflexivity | exact G1].
    eexists. split; [reflexivity|]. repeat split.
Qed.

Lemma last_settlement_wins_witness :
  (exists w', run someAi twoPending
                [Settle 0 (replies "Lyon"); Settle 0 (replies "Villeurbanne")]
              = Some w'
     /\ town (app w') = Some (lit "Villeurbanne") /\ pending w' = []
     /\ lastPosition (app w') = lastPosition (app twoPending))
  /\ (exists w', run someAi twoPending
                   [Settle 1 (replies "Villeurbanne"); Settle 0 (replies "Lyon")]
                 = Some w'
        /\ town (app w') = Some (lit "Lyon") /\ pending w' = []
        /\ lastPosition (app w') = lastPosition (app twoPending)).
Proof.
  apply (last_settlement_wins someAi twoPending
           {| arg_lat := 45.75; arg_lon := 4.85 |}
           {| arg_lat := 45.77; arg_lon := 4.88 |}
           (replies "Lyon") (replies "Villeurbanne")
           (lit "Lyon") (lit "Villeurbanne")); reflexivity.
Defined.

(** ** What ends up on screen *)

(** X14.  A response made only of backticks and asterisks resolves to the empty
    name, and the empty name is falsy: the screen then announces an
    updated position above the placeholder that asks to wait for the
    location, with no error box. *)
Theorem empty_name_shows_placeholder :
  forall (ai : GoogleGenAI) (la lo : float) (t : JsString) (s : State),
    trim t <> [] ->
    forallb isFormatting (trim t) = true ->
    render (exec (handleLocationUpdate_resume
                    (getTownFromCoordinates ai la lo
                       (Fulfilled (mkResponse (Some t))))) s)
    = {| statusRow := Row (lit "text-green-400") MapPinIcon false
                        (lit "Position mise à jour !");
         townPanel := Waiting (lit "En attente de la localisation...");
         errorBox := None |}.
Proof.
  intros ai la lo t s N F.
  rewrite getTownFromCoordinates_text, (stripFormatting_all _ F).
  destruct (trim t); [congruence|]. reflexivity.
Qed.

Lemma empty_name_shows_placeholder_witness :
  render (exec (handleLocationUpdate_resume
                  (getTownFromCoordinates someAi 45.75 4.85 (replies "**")))
            (showing (Some (lit "Lyon")) None GEOCODING 45.75 4.85))
  = {| statusRow := Row (lit "text-green-400") MapPinIcon false
                      (lit "Position mise à jour !");
       townPanel := Waiting (lit "En attente de la localisation...");
       errorBox := None |}.
Proof.
  apply (empty_name_shows_placeholder someAi 45.75 4.85 (lit "**")
           (showing (Some (lit "Lyon")) None GEOCODING 45.75 4.85)).
  - vm_compute. discriminate.
  - reflexivity.
Defined.

(** X15.  After any events from mounting on, the status row is never the empty
    spacer, the row that says Error always comes with the error box
    holding the stored message, and the row that announces an updated
    position never does. *)
Theorem error_row_has_its_message :
  forall (ai : GoogleGenAI) (g : option N) (evs : list Event) (w : World),
    run ai (mounted g) evs = Some w ->
    statusRow (render (app w)) <> Spacer
    /\ (status (app w) = ERROR ->
        exists m, error (app w) = Some m
                  /\ errorBox (render (app w)) = Some m)
    /\ (status (app w) = SUCCESS -> errorBox (render (app w)) = None).
Proof.
  intros ai g evs w R.
  pose proof (run_coherent ai evs _ _ R (mounted_coherent g)) as C.
  unfold coherent in C. unfold render. cbn [statusRow errorBox].
  destruct (status (app w)); try contradiction; split;
    try (unfold renderStatus; discriminate); split; try discriminate; intros _.
  - destruct C as (E & _). rewrite E. reflexivity.
  - destruct C as (m & E & N). exists m. split; [exact E|].
    rewrite E. destruct m; [congruence | reflexivity].
Qed.

Lemma error_row_has_its_message_witness :
  status (app detourFailed) = ERROR
  /\ exists m, error (app detourFailed) = Some m
               /\ errorBox (render (app detourFailed)) = Some m.
Proof.
  destruct (error_row_has_its_message someAi (Some 7%N)
              (journey ++ [Fix detour; Settle 1 (Fulfilled (mkResponse None))])
              detourFailed) as (_ & E & _).
  - vm_compute. reflexivity.
  - split; [reflexivity|]. apply E. reflexivity.
Defined.

(** X16.  Nothing but a successful lookup clears the message, and nothing but a
    successful lookup changes the town.  So an accepted fix shows the
    Geocoding row above the message of an earlier failure, and a failed
    lookup shows the Error row and its message beside the town panel as
    it was. *)
Theorem screen_keeps_stale_parts :
  forall (s : State) (b : GeolocationPosition) (m : JsString) (e : Error),
    error s = Some m ->
    m <> [] ->
    accepts s b = true ->
    render (exec (handleLocationUpdate b) s)
    = {| statusRow := Row (lit "text-purple-400") LoaderIcon true
                        (lit "Détermination de votre ville...");
         townPanel := townPanel (render s);
         errorBox := Some m |}
    /\ render (exec (handleLocationUpdate_resume (Rejected e)) s)
       = {| statusRow := Row (lit "text-red-400") AlertTriangleIcon false
                           (lit "Erreur");
            townPanel := townPanel (render s);
            errorBox := Some LOOKUP_FAILED |}.
Proof.
  intros s b m e E N A. rewrite accepts_unchanged in A.
  apply negb_true_iff in A. split.
  - unfold exec. rewrite (handleLocationUpdate_changed b s A).
    unfold render. cbn [snd status town error]. rewrite E.
    destruct m; [congruence | reflexivity].
  - reflexivity.
Qed.

Lemma screen_keeps_stale_parts_witness :
  render (exec (handleLocationUpdate (fixAt 45.9 4.85))
            (showing (Some (lit "Lyon")) (Some LOOKUP_FAILED) ERROR 45.75 4.85))
  = {| statusRow := Row (lit "text-purple-400") LoaderIcon true
                      (lit "Détermination de votre ville...");
       townPanel := TownName (lit "Lyon");
       errorBox := Some LOOKUP_FAILED |}.
Proof.
  apply (proj1 (screen_keeps_stale_parts
                  (showing (Some (lit "Lyon")) (Some LOOKUP_FAILED) ERROR 45.75 4.85)
                  (fixAt 45.9 4.85) LOOKUP_FAILED FETCH_FAILED
                  eq_refl LOOKUP_FAILED_nonempty eq_refl)).
Defined.
